(** * go-depgraph: a stable dependency graph and its resolution

  A shallow embedding of [depgraph.go] and the properties of its
  resolution algorithm.

  Data model.
  - [T comparable] is a countable type with decidable equality; the zero
    value [var zero T] is [inhabitant].
  - [depList[T] = map[T]struct{}] is a [gset T].
  - A [*depEdge[T]] is created by [Add] once per name and stored under that
    name in [edgeMap]; its [name] field is never written again.  A pointer
    is therefore represented by the name of the record it points to, and
    [edgeMap : gmap T (gset T)] is the store that gives the [deps] field of
    the record behind a pointer.  The slice [edges] holds pointers.
  - [edges := dg.edges] in [ResolveIter] copies the slice header only, so
    the swaps of the algorithm write into the array of the graph: the
    algorithm's [edges] and the graph's [edges] are one list here.
  - Go leaves the order of a [range] over a map open; [MapRange] makes that
    order a parameter of the development.
  - An iterator [iter.Seq2[T, error]] is a function of the consumer's
    [yield]; the consumer is a function on its own state that answers
    whether it wants more. *)

From stdpp Require Import gmap strings list fin_maps.

(** ** Lists as arrays *)

Section swap.
Context {A : Type}.

(** [l[i], l[j] = l[j], l[i]].  Go panics when an index is out of range;
    here the list is left as it is, and [ResolveIter] stays in range
    (see [promoted_le] and [scanning_promote_in_range]). *)
Definition swap (l : list A) (i j : nat) : list A :=
  match l !! i, l !! j with
  | Some x, Some y => <[i := y]> (<[j := x]> l)
  | _, _ => l
  end.

(** [x] occurs strictly before [y] in [l]. *)
Definition before (x y : A) (l : list A) : Prop :=
  ∃ i j, l !! i = Some x ∧ l !! j = Some y ∧ i < j.
End swap.

(** ** Errors *)

Section depgraph.
Context {T : Type} `{Countable T} `{Inhabited T}.

(** [errors.New] gives the two sentinels; [fmt.Errorf] with [%w] wraps an
    error with a message and, for the lookup, the value printed by [%v]. *)
Inductive error :=
| ErrCircularDependency
| ErrUnknownDependency
| Errorf (msg : string) (arg : option T) (wrapped : error).

#[global] Instance error_eq_dec : EqDecision error.
Proof. solve_decision. Defined.

(** [errors.Is]: the error or one it wraps is the target. *)
Fixpoint errors_Is (err target : error) : bool :=
  bool_decide (err = target) ||
  match err with
  | Errorf _ _ wrapped => errors_Is wrapped target
  | _ => false
  end.

(** ** The graph *)

Record DependencyGraph := mkGraph {
  edges : list T;
  edgeMap : gmap T (gset T);
}.

Definition NewDependencyGraph : DependencyGraph :=
  {| edges := []; edgeMap := ∅ |}.

(** [edge.deps] of the record behind the pointer [p]. *)
Definition deps_of (dg : DependencyGraph) (p : T) : gset T :=
  default ∅ (edgeMap dg !! p).

(** [edge.deps[dep] = struct{}{}] for the record named [name]. *)
Definition add_dep (name : T) (m : gmap T (gset T)) (dep : T) : gmap T (gset T) :=
  <[name := {[dep]} ∪ default ∅ (m !! name)]> m.

Definition Add (dg : DependencyGraph) (name : T) (deps : list T) : DependencyGraph :=
  let dg1 :=
    match edgeMap dg !! name with
    | Some _ => dg
    | None => {| edges := edges dg ++ [name];
                 edgeMap := <[name := ∅]> (edgeMap dg) |}
    end in
  {| edges := edges dg1; edgeMap := foldl (add_dep name) (edgeMap dg1) deps |}.

(** ** Ranging over maps *)

(** The order in which [range] visits [dg.edgeMap] and [edge.deps]. *)
Class MapRange := {
  range_edgeMap : gmap T (gset T) → list (T * gset T);
  range_deps : gset T → list T;
  range_edgeMap_perm m : range_edgeMap m ≡ₚ map_to_list m;
  range_deps_perm s : range_deps s ≡ₚ elements s;
}.

Context `{MapRange}.

(** ** validate *)

Fixpoint validate_deps (m : gmap T (gset T)) (deps : list T) : option error :=
  match deps with
  | [] => None
  | dep :: rest =>
      match m !! dep with
      | Some _ => validate_deps m rest
      | None => Some (Errorf "looking up dependency" (Some dep) ErrUnknownDependency)
      end
  end.

Fixpoint validate_edges (m : gmap T (gset T)) (es : list (T * gset T)) : option error :=
  match es with
  | [] => None
  | (_, deps) :: rest =>
      match validate_deps m (range_deps deps) with
      | Some err => Some err
      | None => validate_edges m rest
      end
  end.

Definition validate (dg : DependencyGraph) : option error :=
  validate_edges (edgeMap dg) (range_edgeMap (edgeMap dg)).

(** ** ResolveIter *)

(** [yield func(T, error) bool], with the consumer's state made explicit. *)
Definition yield_fn (C : Type) : Type := C → T → option error → C * bool.

(** The local variables [edges], [refcounts] and [fmax]. *)
Record resolver := mkResolver {
  r_edges : list T;
  refcounts : gmap T Z;
  fmax : nat;
}.

(** [refcounts[edge.name] = len(edge.deps)] for every edge. *)
Definition init_refcounts (dg : DependencyGraph) : gmap T Z :=
  foldl (λ rc p, <[p := Z.of_nat (size (deps_of dg p))]> rc) ∅ (edges dg).

(** One round of the first promotion loop, at index [i]. *)
Definition promote_step (dg : DependencyGraph) (st : list T * nat) (i : nat)
    : list T * nat :=
  match st.1 !! i with
  | Some p =>
      if decide (size (deps_of dg p) = 0)
      then (swap st.1 st.2 i, S st.2)
      else st
  | None => st
  end.

Definition promote_free (dg : DependencyGraph) (es : list T) : list T * nat :=
  foldl (promote_step dg) (es, 0) (seq 0 (length es)).

(** One round of the inner loop, at index [i], after [this] was yielded. *)
Definition scan_step (dg : DependencyGraph) (this : T) (st : resolver) (i : nat)
    : resolver :=
  match r_edges st !! i with
  | Some p =>
      if decide (this ∈ deps_of dg p) then
        let rc := <[p := (default 0 (refcounts st !! p) - 1)%Z]> (refcounts st) in
        if decide (default 0%Z (rc !! p) = 0%Z)
        then {| r_edges := swap (r_edges st) (fmax st) i;
                refcounts := rc; fmax := S (fmax st) |}
        else {| r_edges := r_edges st; refcounts := rc; fmax := fmax st |}
      else st
  | None => st
  end.

(** [for i := fcur + 1; i < len(edges); i++]. *)
Definition scan (dg : DependencyGraph) (this : T) (fcur : nat) (st : resolver)
    : resolver :=
  foldl (scan_step dg this) st
    (seq (S fcur) (length (r_edges st) - S fcur)).

(** [for fcur := 0; fcur < fmax; fcur++].  The loop runs at most
    [len(edges)] rounds, since [edges[fcur]] must exist: [fuel] counts them.
    The boolean says whether the loop ran to its end ([true]) or the
    function returned because the consumer asked for no more ([false]). *)
Fixpoint drain {C : Type} (yield : yield_fn C) (dg : DependencyGraph)
    (fuel fcur : nat) (st : resolver) (s : C) : resolver * C * bool :=
  if decide (fcur < fmax st) then
    match fuel, r_edges st !! fcur with
    | S fuel', Some this =>
        let '(s', more) := yield s this None in
        if more
        then drain yield dg fuel' (S fcur) (scan dg this fcur st) s'
        else (st, s', false)
    | _, _ => (st, s, false)
    end
  else (st, s, true).

Definition ResolveIter {C : Type} (dg : DependencyGraph) (yield : yield_fn C)
    (s : C) : DependencyGraph * C :=
  match validate dg with
  | Some err =>
      (dg, (yield s inhabitant
              (Some (Errorf "validating dependency graph" None err))).1)
  | None =>
      let rc := init_refcounts dg in
      let '(es, fm) := promote_free dg (edges dg) in
      let '(st, s', finished) :=
        drain yield dg (length es) 0
          {| r_edges := es; refcounts := rc; fmax := fm |} s in
      let dg' := {| edges := r_edges st; edgeMap := edgeMap dg |} in
      if finished && negb (bool_decide (fmax st = length (r_edges st)))
      then (dg', (yield s' inhabitant (Some ErrCircularDependency)).1)
      else (dg', s')
  end.

(** ** Resolve *)

(** The body of [for el, err := range dg.ResolveIter()]: the state is the
    slice [res] and the error the body returned with, if it did. *)
Definition Resolve_body : yield_fn (list T * option error) :=
  λ s el err,
    match err with
    | Some e => ((s.1, Some e), false)
    | None => ((s.1 ++ [el], None), true)
    end.

(** The result is [(res, err)]; a nil slice is [None]. *)
Definition Resolve (dg : DependencyGraph)
    : DependencyGraph * (option (list T) * option error) :=
  let '(dg', (res, ret)) := ResolveIter dg Resolve_body ([], None) in
  match ret with
  | Some err => (dg', (None, Some err))
  | None => (dg', (Some res, None))
  end.

End depgraph.

Arguments error : clear implicits.
Arguments DependencyGraph T {_ _}.
Arguments MapRange T {_ _}.
Arguments yield_fn T C : clear implicits.
Arguments resolver T {_ _}.

(** The order of stdpp's own enumeration is one possible order. *)
#[global] Instance canonical_range `{Countable T} : MapRange T :=
{| range_edgeMap := map_to_list;
   range_deps := elements;
   range_edgeMap_perm := λ _, reflexivity _;
   range_deps_perm := λ _, reflexivity _ |}.

(** * The vocabulary of the specification *)

Section spec.
Context {T : Type} `{Countable T} `{!Inhabited T} `{!MapRange T}.
Implicit Types (dg : DependencyGraph T) (st : resolver T).

Definition free dg (p : T) : Prop := size (deps_of dg p) = 0.

#[global] Instance free_dec dg p : Decision (free dg p).
Proof. unfold free. apply _. Defined.

(** The state of the first loop after the indexes below [i]. *)
Record promoted dg (es0 : list T) (i : nat) (st : list T * nat) : Prop := {
  promoted_length : length st.1 = length es0;
  promoted_rest j : i ≤ j → st.1 !! j = es0 !! j;
  promoted_prefix : take st.2 st.1 = filter (free dg) (take i es0);
  promoted_le : st.2 ≤ i;
  promoted_pending j p : st.2 ≤ j < i → st.1 !! j = Some p → ¬ free dg p;
  promoted_perm : st.1 ≡ₚ es0;
}.

Definition rc_of st (p : T) : Z := default 0%Z (refcounts st !! p).

(** How many dependencies of [p] are outside of [seen]. *)
Definition remaining dg (seen : list T) (p : T) : nat :=
  size (deps_of dg p ∖ list_to_set seen).

(** The invariant of the outer loop at its head, with cursor [fcur]. *)
Record resolving dg (fcur : nat) st : Prop := {
  resolving_nodup : NoDup (r_edges st);
  resolving_bounds : fcur ≤ fmax st ≤ length (r_edges st);
  resolving_free j p d :
    j < fmax st → r_edges st !! j = Some p → d ∈ deps_of dg p →
    ∃ k, k < j ∧ k < fcur ∧ r_edges st !! k = Some d;
  resolving_pending j p :
    fmax st ≤ j → r_edges st !! j = Some p →
    rc_of st p = Z.of_nat (remaining dg (take fcur (r_edges st)) p) ∧
    0 < remaining dg (take fcur (r_edges st)) p;
}.

(** The invariant of the inner loop at index [i], after [edges[fcur]] was
    yielded. *)
Record scanning dg (fcur i : nat) st : Prop := {
  scanning_nodup : NoDup (r_edges st);
  scanning_bounds : fcur < fmax st ≤ length (r_edges st);
  scanning_free j p d :
    j < fmax st → r_edges st !! j = Some p → d ∈ deps_of dg p →
    ∃ k, k < j ∧ r_edges st !! k = Some d ∧
         (if decide (i ≤ j) then k < fcur else k ≤ fcur);
  scanning_pending j p :
    fmax st ≤ j → r_edges st !! j = Some p →
    let seen := take (if decide (j < i) then S fcur else fcur) (r_edges st) in
    rc_of st p = Z.of_nat (remaining dg seen p) ∧ 0 < remaining dg seen p;
}.

(** The error [validate] gives for the unknown dependency [dep]. *)
Definition unknown_error (dep : T) : error T :=
  Errorf "looking up dependency" (Some dep) ErrUnknownDependency.

(** Every dependency of an element of [es] stands before it in [es]. *)
Definition sorted dg (es : list T) : Prop :=
  ∀ p d, p ∈ es → d ∈ deps_of dg p → before d p es.

(** What a caller can do to a graph: [dg.Add(name, deps...)], and ranging
    over [dg.ResolveIter()] with some loop body ([dg.Resolve()] is one). *)
Inductive op :=
| OpAdd (name : T) (deps : list T)
| OpResolveIter (C : Type) (yield : yield_fn T C) (s : C).

Definition apply_op dg (o : op) : DependencyGraph T :=
  match o with
  | OpAdd name deps => Add dg name deps
  | OpResolveIter _ yield s => (ResolveIter dg yield s).1
  end.

(** [dg.Resolve()] as an operation of a caller. *)
Definition Resolve_op : op := OpResolveIter _ Resolve_body ([], None).

(** The graph after the operations [ops] on a new graph. *)
Definition run (ops : list op) : DependencyGraph T :=
  foldl apply_op NewDependencyGraph ops.

Definition note_insertion (ord : list T) (o : op) : list T :=
  match o with
  | OpAdd name _ => if decide (name ∈ ord) then ord else ord ++ [name]
  | OpResolveIter _ _ _ => ord
  end.

(** The names passed to [Add], each at its first appearance. *)
Definition insertion_order (ops : list op) : list T :=
  foldl note_insertion [] ops.

(** What holds of every graph a caller can build. *)
Record consistent (ord : list T) dg : Prop := {
  consistent_nodup : NoDup (edges dg);
  consistent_perm : edges dg ≡ₚ ord;
  consistent_dom p : p ∈ edges dg ↔ is_Some (edgeMap dg !! p);
  consistent_free : filter (free dg) (edges dg) = filter (free dg) ord;
}.

(** The names passed to [Add] in [ops]. *)
Definition names (ops : list op) : list T :=
  omap (λ o, match o with OpAdd name _ => Some name | _ => None end) ops.

(** [x] is an element of the graph and depends on [y]. *)
Definition depends dg (x y : T) : Prop := x ∈ edges dg ∧ y ∈ deps_of dg x.

Definition has_cycle dg : Prop := ∃ x, tc (depends dg) x x.

(** A consumer that also keeps a log of the pairs it was given and of its
    answers. *)
Definition traced {C} (yield : yield_fn T C)
    : yield_fn T (C * list (T * option (error T) * bool)) :=
  λ s el err,
    let '(c, more) := yield s.1 el err in
    ((c, s.2 ++ [(el, err, more)]), more).

(** The operations of a caller who only adds. *)
Definition add_ops (adds : list (T * list T)) : list op :=
  (λ a, OpAdd a.1 a.2) <$> adds.

(** The dependency sets a sequence of calls of [Add] accumulates. *)
Definition accumulated (adds : list (T * list T)) : gmap T (gset T) :=
  foldl (λ m a, <[a.1 := list_to_set a.2 ∪ default ∅ (m !! a.1)]> m) ∅ adds.

(** ** The order in which edges become ready *)

(** All dependencies of [p] are among the first [c] edges of [es]. *)
Definition ready dg (es : list T) (c : nat) (p : T) : Prop :=
  deps_of dg p ⊆ list_to_set (take c es).

(** Among the first [fm] edges, an edge is ready no later than the edges
    behind it. *)
Definition ordered dg (es : list T) (fm : nat) : Prop :=
  ∀ j1 j2 p1 p2 c,
    j1 < j2 < fm → es !! j1 = Some p1 → es !! j2 = Some p2 →
    ready dg es c p2 → ready dg es c p1.

(** What the invariant of the outer loop at cursor [c] says of the sequence
    alone: the first [fm] edges are free and ordered, the others are not
    ready.  With [c = fm] it is the state in which the loop ends when no
    consumer stops it. *)
Record frontier dg (es : list T) (c fm : nat) : Prop := {
  frontier_nodup : NoDup es;
  frontier_bounds : c ≤ fm ≤ length es;
  frontier_free j p : j < fm → es !! j = Some p → ready dg es (min j c) p;
  frontier_stuck j p : fm ≤ j → es !! j = Some p → ¬ ready dg es c p;
  frontier_ordered : ordered dg es fm;
}.

(** Two results of the outer loop that differ in the reference counts at
    most. *)
Definition same_run {C} (r1 r2 : resolver T * C * bool) : Prop :=
  r_edges r1.1.1 = r_edges r2.1.1 ∧ fmax r1.1.1 = fmax r2.1.1 ∧
  r1.1.2 = r2.1.2 ∧ r1.2 = r2.2.

(** ** Graphs and consumers *)

(** Every dependency of every element is an element. *)
Definition closed dg : Prop :=
  ∀ e d, e ∈ edges dg → d ∈ deps_of dg e → d ∈ edges dg.

(** An operation that is a resolution, not a call of [Add]. *)
Definition resolution (o : op) : Prop :=
  match o with
  | OpAdd _ _ => False
  | OpResolveIter _ _ _ => True
  end.

(** The elements among the pairs of a log. *)
Definition yielded (log : list (T * option (error T) * bool)) : list T :=
  (λ e, e.1.1) <$> filter (λ e, e.1.2 = None) log.

(** A loop body run over a list of elements: [for _, x := range l] with the
    body's [break]. *)
Fixpoint feed {C} (yield : yield_fn T C) (s : C) (l : list T) : C * bool :=
  match l with
  | [] => (s, true)
  | x :: l =>
      let '(s', more) := yield s x None in
      if more then feed yield s' l else (s', false)
  end.

End spec.

(** * The scenarios of the specification and of the tests *)

(** Scenario 1, and the first example of the README. *)
Definition scenario1 : list op :=
  [OpAdd "A" []; OpAdd "B" ["A"]; OpAdd "C" []; OpAdd "D" ["B"; "A"]; OpAdd "E" []].

(** Scenario 3: a cycle through four elements. *)
Definition scenario3 : list op :=
  [OpAdd "A" ["B"]; OpAdd "B" ["C"]; OpAdd "C" ["D"]; OpAdd "D" ["A"]].

(** Scenario 4: a dependency that was never added. *)
Definition scenario4 : list op := [OpAdd "A" ["X"]; OpAdd "B" []; OpAdd "C" []].

(** The graph of [TestIterCircularEarlyExit]. *)
Definition early_exit : list op :=
  [OpAdd "A" ["B"]; OpAdd "B" []; OpAdd "C" []; OpAdd "D" [];
   OpAdd "E" ["F"]; OpAdd "F" ["E"]; OpAdd "G" []].

(** The body of its loop: fail on an error, else collect the element and
    [break] at ["A"]. *)
Definition until_A : yield_fn string (list string) :=
  λ res el err,
    match err with
    | Some _ => (res, false)
    | None => (res ++ [el], negb (bool_decide (el = "A")))
    end.

(** An element without dependencies and one that depends on itself. *)
Definition self_dependent : list op := [OpAdd "A" []; OpAdd "B" ["B"]].

(** A loop body that collects every pair it is given. *)
Definition keep_all : yield_fn string (list (string * option (error string))) :=
  λ log el err, (log ++ [(el, err)], true).

(** The same calls of [Add], once with a resolution before the last one. *)
Definition with_resolution : list op :=
  [OpAdd "B" []; OpAdd "A" ["D"]; OpAdd "D" []; Resolve_op; OpAdd "B" ["D"]].

Definition without_resolution : list op :=
  [OpAdd "B" []; OpAdd "A" ["D"]; OpAdd "D" []; OpAdd "B" ["D"]].

(** Two elements with the same dependency, [X] added before [Y]. *)
Definition same_step : list op := [OpAdd "X" ["A"]; OpAdd "Y" ["A"]; OpAdd "A" []].

(** Elements without any dependency. *)
Definition independent : list op := [OpAdd "B" []; OpAdd "A" []; OpAdd "C" []].

(** A first pass that stops at ["A"], and a call of [Resolve]. *)
Definition two_passes : list op := [OpResolveIter _ until_A []; Resolve_op].

(** * The algorithm *)

Set Warnings "-clear-no-such-hyp".

Section swap_facts.
Context {A : Type}.
Implicit Types l : list A.

Lemma length_swap l i j : length (swap l i j) = length l.
Proof.
  unfold swap. destruct (l !! i), (l !! j); rewrite ?length_insert; done.
Qed.

Lemma lookup_swap l i j k :
  i < length l → j < length l →
  swap l i j !! k =
    if decide (k = i) then l !! j else if decide (k = j) then l !! i else l !! k.
Proof.
  intros Hi Hj. unfold swap.
  destruct (lookup_lt_is_Some_2 l i Hi) as [x Hx].
  destruct (lookup_lt_is_Some_2 l j Hj) as [y Hy].
  rewrite Hx, Hy.
  destruct (decide (k = i)) as [->|Hki].
  - rewrite list_lookup_insert_eq; [done|by rewrite length_insert].
  - rewrite list_lookup_insert_ne by done.
    destruct (decide (k = j)) as [->|Hkj].
    + by rewrite list_lookup_insert_eq.
    + by rewrite list_lookup_insert_ne.
Qed.

Lemma lookup_swap_ne l i j k : k ≠ i → k ≠ j → swap l i j !! k = l !! k.
Proof.
  intros Hi Hj. unfold swap.
  destruct (l !! i), (l !! j); rewrite ?list_lookup_insert_ne; done.
Qed.

Lemma take_swap l i j n : n ≤ i → n ≤ j → take n (swap l i j) = take n l.
Proof.
  intros Hi Hj. unfold swap.
  destruct (l !! i), (l !! j); rewrite ?take_insert_ge; done.
Qed.

Lemma swap_Permutation l i j : swap l i j ≡ₚ l.
Proof.
  destruct (decide (i < length l ∧ j < length l)) as [[Hi Hj]|Hn].
  - apply Permutation_inj. split; [apply length_swap|].
    exists (λ k, if decide (k = i) then j else if decide (k = j) then i else k).
    split.
    + intros a b. repeat case_decide; intros; subst; congruence.
    + intros k. rewrite lookup_swap by done.
      repeat case_decide; subst; done.
  - unfold swap.
    destruct (l !! i) eqn:Hx; [|done].
    destruct (l !! j) eqn:Hy; [|done].
    apply lookup_lt_Some in Hx, Hy. lia.
Qed.

Lemma filter_none (P : A → Prop) `{!∀ x, Decision (P x)} l :
  (∀ x, x ∈ l → ¬ P x) → filter P l = [].
Proof.
  induction l as [|x l IH]; intros Hall; [done|].
  rewrite filter_cons_False by (apply Hall; by left).
  apply IH. intros y Hy. apply Hall. by right.
Qed.

Lemma take_eq_le l1 l2 n m :
  n ≤ m → take m l1 = take m l2 → take n l1 = take n l2.
Proof.
  intros Hle Heq. replace n with (min n m) by lia.
  by rewrite <- !take_take, Heq.
Qed.

Lemma before_cons x y a l :
  before x y (a :: l) ↔ (a = x ∧ y ∈ l) ∨ before x y l.
Proof.
  split.
  - intros (i & j & Hi & Hj & Hlt). destruct j as [|j]; [lia|].
    destruct i as [|i]; simplify_eq/=.
    + left. split; [done|]. by eapply list_elem_of_lookup_2.
    + right. exists i, j. split_and!; [done|done|lia].
  - intros [[-> [j Hj]%list_elem_of_lookup]|(i & j & ? & ? & ?)].
    + exists 0, (S j). split_and!; [done|done|lia].
    + exists (S i), (S j). split_and!; [done|done|lia].
Qed.

Lemma before_filter (P : A → Prop) `{!∀ x, Decision (P x)} x y l :
  P x → P y → before x y (filter P l) ↔ before x y l.
Proof.
  intros Hx Hy. induction l as [|a l IH].
  - done.
  - rewrite filter_cons. destruct (decide (P a)) as [Ha|Ha].
    + rewrite !before_cons, IH, list_elem_of_filter. naive_solver.
    + rewrite before_cons, IH. naive_solver.
Qed.

Lemma before_irrefl x l : NoDup l → ¬ before x x l.
Proof.
  intros Hnd (i & j & Hi & Hj & Hlt).
  pose proof (NoDup_lookup _ _ _ _ Hnd Hi Hj). lia.
Qed.

Lemma before_trans x y z l :
  NoDup l → before x y l → before y z l → before x z l.
Proof.
  intros Hnd (i & j & Hi & Hj & Hlt) (j' & k & Hj' & Hk & Hlt').
  pose proof (NoDup_lookup _ _ _ _ Hnd Hj Hj'). subst j'.
  exists i, k. split_and!; [done|done|lia].
Qed.
End swap_facts.

Section promote.
Context {T : Type} `{Countable T}.
Implicit Types (dg : DependencyGraph T) (es : list T).

Lemma free_empty dg p : free dg p ↔ deps_of dg p = ∅.
Proof. unfold free. rewrite size_empty_iff. by unfold_leibniz. Qed.

Lemma promote_step_spec dg es0 i st :
  i < length es0 → promoted dg es0 i st →
  promoted dg es0 (S i) (promote_step dg st i).
Proof.
  intros Hi [Hlen Hrest Hpre Hle Hpend Hperm]. destruct st as [es fm]; simpl in *.
  destruct (lookup_lt_is_Some_2 es0 i Hi) as [p Hp].
  assert (es !! i = Some p) as Hesi by (by rewrite Hrest).
  unfold promote_step; simpl. rewrite Hesi.
  pose proof (take_S_r _ _ _ Hp) as Htake.
  destruct (decide (size (deps_of dg p) = 0)) as [Hfree|Hfree].
  - split; simpl.
    + by rewrite length_swap.
    + intros j Hj. rewrite lookup_swap_ne by lia. apply Hrest. lia.
    + rewrite Htake, filter_app, filter_cons_True, filter_nil by done.
      rewrite <- Hpre.
      erewrite take_S_r.
      * by rewrite take_swap.
      * rewrite lookup_swap by lia. by rewrite decide_True.
    + lia.
    + intros j q Hj. rewrite lookup_swap by lia.
      rewrite decide_False by lia. case_decide; [subst j|].
      * intros Hq. apply (Hpend fm); [lia|done].
      * intros Hq. apply (Hpend j); [lia|done].
    + by rewrite swap_Permutation.
  - split; simpl; try done.
    + intros j Hj. apply Hrest. lia.
    + rewrite Htake, filter_app, filter_cons_False, filter_nil, app_nil_r by done.
      done.
    + lia.
    + intros j q Hj Hq. destruct (decide (j = i)) as [->|].
      * congruence.
      * apply (Hpend j); [lia|done].
Qed.

Lemma promote_free_spec dg es :
  promoted dg es (length es) (promote_free dg es).
Proof.
  unfold promote_free.
  cut (∀ n, n ≤ length es →
         promoted dg es n (foldl (promote_step dg) (es, 0) (seq 0 n))).
  { intros Hn. by apply Hn. }
  induction n as [|n IH]; intros Hn.
  - split; simpl; try done. intros; lia.
  - rewrite seq_S, foldl_snoc. simpl.
    apply promote_step_spec; [lia|]. apply IH. lia.
Qed.
End promote.

Section scan.
Context {T : Type} `{Countable T}.
Implicit Types (dg : DependencyGraph T) (st : resolver T).

Lemma remaining_0 dg seen p d :
  remaining dg seen p = 0 → d ∈ deps_of dg p → d ∈ seen.
Proof.
  unfold remaining. rewrite size_empty_iff. intros Hempty Hd.
  destruct (decide (d ∈ seen)) as [|Hn]; [done|].
  exfalso. set_solver.
Qed.

Lemma remaining_snoc_in dg seen this p :
  this ∈ deps_of dg p → this ∉ seen →
  remaining dg seen p = S (remaining dg (seen ++ [this]) p).
Proof.
  intros Hin Hnot. unfold remaining.
  assert (deps_of dg p ∖ list_to_set seen =
          {[this]} ∪ deps_of dg p ∖ list_to_set (seen ++ [this])) as ->.
  { apply set_eq. intros x. rewrite list_to_set_app_L.
    destruct (decide (x = this)); set_solver. }
  rewrite size_union by (rewrite list_to_set_app_L; set_solver).
  by rewrite size_singleton.
Qed.

Lemma remaining_snoc_notin dg seen this p :
  this ∉ deps_of dg p →
  remaining dg (seen ++ [this]) p = remaining dg seen p.
Proof.
  intros Hnot. unfold remaining. f_equal.
  rewrite list_to_set_app_L. set_solver.
Qed.

Lemma resolving_scanning dg fcur st :
  resolving dg fcur st → fcur < fmax st → scanning dg fcur (S fcur) st.
Proof.
  intros [Hnd Hb Hfree Hpend] Hlt. split; [done|lia|..].
  - intros j p d Hj Hp Hd. destruct (Hfree j p d Hj Hp Hd) as (k & ? & ? & ?).
    exists k. case_decide; repeat split; try done; lia.
  - intros j p Hj Hp. cbv zeta. rewrite decide_False by lia.
    exact (Hpend j p Hj Hp).
Qed.

Lemma scanning_resolving dg fcur i st :
  scanning dg fcur i st → length (r_edges st) ≤ i → resolving dg (S fcur) st.
Proof.
  intros [Hnd Hb Hfree Hpend] Hi. split; [done|lia|..].
  - intros j p d Hj Hp Hd. destruct (Hfree j p d Hj Hp Hd) as (k & ? & ? & Hk).
    exists k. rewrite decide_False in Hk by lia. repeat split; try done; lia.
  - intros j p Hj Hp. specialize (Hpend j p Hj Hp). cbv zeta in Hpend.
    apply lookup_lt_Some in Hp. rewrite decide_True in Hpend by lia. done.
Qed.

(** A promotion in the inner loop swaps two indexes that are in range. *)
Lemma scanning_promote_in_range dg fcur i st this p :
  scanning dg fcur i st → r_edges st !! fcur = Some this →
  r_edges st !! i = Some p → this ∈ deps_of dg p →
  fmax st ≤ i < length (r_edges st).
Proof.
  intros [Hnd Hb Hfree Hpend] Hthis Hp Hin.
  split; [|by eapply lookup_lt_Some].
  destruct (decide (fmax st ≤ i)) as [|Hn]; [done|].
  destruct (Hfree i p this) as (k & ? & Hk & Hlt); [lia|done|done|].
  rewrite decide_True in Hlt by done.
  pose proof (NoDup_lookup _ _ _ _ Hnd Hk Hthis). lia.
Qed.

Lemma scan_step_scanning dg fcur this i st :
  scanning dg fcur i st → r_edges st !! fcur = Some this →
  fcur < i → i < length (r_edges st) →
  scanning dg fcur (S i) (scan_step dg this st i) ∧
  fmax st ≤ fmax (scan_step dg this st i) ∧
  take (fmax st) (r_edges (scan_step dg this st i)) = take (fmax st) (r_edges st) ∧
  length (r_edges (scan_step dg this st i)) = length (r_edges st).
Proof.
  intros [Hnd Hb Hfree Hpend] Hthis Hfi Hi.
  destruct st as [es rc fm]; simpl in *.
  destruct (lookup_lt_is_Some_2 es i Hi) as [p Hp].
  assert (this ∉ take fcur es) as Hnotin.
  { rewrite elem_of_take. intros (k & Hk & Hlt).
    pose proof (NoDup_lookup _ _ _ _ Hnd Hk Hthis). lia. }
  pose proof (take_S_r _ _ _ Hthis) as Htake.
  assert (∀ j q d, j < fm → es !! j = Some q → d ∈ deps_of dg q →
            ∃ k, k < j ∧ es !! k = Some d ∧
                 (if decide (S i ≤ j) then k < fcur else k ≤ fcur)) as Hfree'.
  { intros j q d Hj Hq Hd. destruct (Hfree j q d Hj Hq Hd) as (k & ? & ? & Hk).
    exists k. repeat split; try done. repeat case_decide; lia. }
  assert (∀ j q, j ≠ i → fm ≤ j → es !! j = Some q →
            q ≠ p ∧
            let seen := take (if decide (j < S i) then S fcur else fcur) es in
            default 0%Z (rc !! q) = Z.of_nat (remaining dg seen q) ∧
            0 < remaining dg seen q) as Hpend'.
  { intros j q Hji Hj Hq. split.
    - intros ->. pose proof (NoDup_lookup _ _ _ _ Hnd Hq Hp). done.
    - specialize (Hpend j q Hj Hq). cbv zeta in *.
      destruct (decide (j < i)), (decide (j < S i)); try done; lia. }
  unfold scan_step; simpl. rewrite Hp.
  destruct (decide (this ∈ deps_of dg p)) as [Hin|Hout]; simpl.
  - assert (fm ≤ i) as Hfm.
    { by apply (scanning_promote_in_range dg fcur i (mkResolver es rc fm) this p). }
    destruct (Hpend i p Hfm Hp) as [Hrc Hpos]. cbv zeta in Hrc, Hpos.
    rewrite decide_False in Hrc, Hpos by lia. unfold rc_of in Hrc; simpl in Hrc.
    rewrite (remaining_snoc_in dg _ this p Hin Hnotin), <- Htake in Hrc.
    rewrite lookup_insert_eq; simpl.
    destruct (decide _) as [Hzero|Hnz]; simpl.
    + assert (remaining dg (take (S fcur) es) p = 0) as Hrem by lia.
      (split; [split|split; [|split]]); simpl.
      * by rewrite swap_Permutation.
      * rewrite length_swap. lia.
      * intros j q d Hj. rewrite lookup_swap by lia.
        destruct (decide (j = fm)) as [->|Hjfm].
        -- rewrite Hp. intros [= <-] Hd.
           apply (remaining_0 _ _ _ _ Hrem) in Hd.
           apply elem_of_take in Hd as (k & Hk & Hlt).
           exists k. rewrite lookup_swap_ne by lia.
           rewrite decide_False by lia. repeat split; [lia|done|lia].
        -- rewrite decide_False by lia. intros Hq Hd.
           destruct (Hfree' j q d) as (k & ? & ? & ?); [lia|done|done|].
           exists k. rewrite lookup_swap_ne by lia. done.
      * intros j q Hj. rewrite lookup_swap by lia.
        rewrite decide_False by lia. unfold rc_of; simpl.
        rewrite take_swap by (case_decide; lia).
        destruct (decide (j = i)) as [->|Hji].
        -- intros Hq. rewrite decide_True by lia.
           assert (q ≠ p) as Hne.
           { intros ->. pose proof (NoDup_lookup _ _ _ _ Hnd Hq Hp). lia. }
           rewrite lookup_insert_ne by done.
           specialize (Hpend fm q (le_n _) Hq). cbv zeta in Hpend.
           rewrite decide_True in Hpend by lia. done.
        -- intros Hq. destruct (Hpend' j q) as [Hne Hq']; [done|lia|done|].
           rewrite lookup_insert_ne by done. done.
      * lia.
      * by rewrite take_swap.
      * by rewrite length_swap.
    + (split; [split|split; [|split]]); simpl; try done; try lia.
      intros j q Hj Hq. unfold rc_of; simpl.
      destruct (decide (j = i)) as [->|Hji].
      * assert (q = p) as -> by congruence.
        rewrite lookup_insert_eq, decide_True by lia. simpl. split; lia.
      * destruct (Hpend' j q) as [Hne Hq']; [done|lia|done|].
        rewrite lookup_insert_ne by done. done.
  - (split; [split|split; [|split]]); simpl; try done; try lia.
    intros j q Hj Hq. unfold rc_of; simpl.
    destruct (decide (j = i)) as [->|Hji].
    + assert (q = p) as -> by congruence.
      specialize (Hpend i p Hj Hp). cbv zeta in Hpend.
      rewrite decide_False in Hpend by lia. rewrite decide_True by lia.
      rewrite Htake, remaining_snoc_notin by done. done.
    + by destruct (Hpend' j q) as [Hne Hq'].
Qed.
End scan.

Section drain.
Context {T : Type} `{Countable T}.
Implicit Types (dg : DependencyGraph T) (st : resolver T).

Lemma scan_step_perm dg this st i :
  r_edges (scan_step dg this st i) ≡ₚ r_edges st.
Proof.
  unfold scan_step. destruct (r_edges st !! i); [|done].
  repeat case_decide; simpl; try done. apply swap_Permutation.
Qed.

Lemma scan_perm dg this fcur st : r_edges (scan dg this fcur st) ≡ₚ r_edges st.
Proof.
  unfold scan. generalize (seq (S fcur) (length (r_edges st) - S fcur)).
  intros l. revert st. induction l as [|i l IH]; intros st; simpl; [done|].
  rewrite IH. apply scan_step_perm.
Qed.

Lemma scan_resolving dg fcur this st :
  resolving dg fcur st → fcur < fmax st → r_edges st !! fcur = Some this →
  resolving dg (S fcur) (scan dg this fcur st) ∧
  fmax st ≤ fmax (scan dg this fcur st) ∧
  take (fmax st) (r_edges (scan dg this fcur st)) = take (fmax st) (r_edges st).
Proof.
  intros Hinv Hlt Hthis. unfold scan.
  pose proof (resolving_bounds _ _ _ Hinv) as Hb.
  cut (∀ n, S fcur + n ≤ length (r_edges st) →
         let st' := foldl (scan_step dg this) st (seq (S fcur) n) in
         scanning dg fcur (S fcur + n) st' ∧ r_edges st' !! fcur = Some this ∧
         fmax st ≤ fmax st' ∧
         take (fmax st) (r_edges st') = take (fmax st) (r_edges st) ∧
         length (r_edges st') = length (r_edges st)).
  { intros Hcut.
    destruct (Hcut (length (r_edges st) - S fcur)) as (Hs & _ & ? & ? & Hlen); [lia|].
    split; [|done]. eapply scanning_resolving; [done|]. rewrite Hlen. lia. }
  induction n as [|n IH]; intros Hn; cbv zeta.
  - simpl. rewrite Nat.add_0_r. split_and!; try done. by apply resolving_scanning.
  - rewrite seq_S, foldl_snoc.
    destruct IH as (Hs & Hthis' & Hfm & Htake & Hlen); [lia|].
    set (st1 := foldl (scan_step dg this) st (seq (S fcur) n)) in *.
    destruct (scan_step_scanning dg fcur this (S fcur + n) st1)
      as (Hs' & Hfm' & Htake' & Hlen'); [done|done|lia|lia|].
    replace (S fcur + S n) with (S (S fcur + n)) by lia.
    split_and!; [done|..].
    + rewrite <- Hthis'.
      rewrite <- (lookup_take_lt (r_edges (scan_step _ _ _ _)) (fmax st1)),
              <- (lookup_take_lt (r_edges st1) (fmax st1)), Htake'; [done|..];
        pose proof (scanning_bounds _ _ _ _ Hs); lia.
    + lia.
    + rewrite <- Htake. by apply (take_eq_le _ _ _ (fmax st1)).
    + lia.
Qed.

Lemma drain_perm {C} (yield : yield_fn T C) dg fuel fcur st s :
  r_edges (drain yield dg fuel fcur st s).1.1 ≡ₚ r_edges st.
Proof.
  revert fcur st s. induction fuel as [|fuel IH]; intros fcur st s; simpl.
  - case_decide; [|done]. by destruct (r_edges st !! fcur).
  - case_decide; [|done]. destruct (r_edges st !! fcur) as [this|]; [|done].
    destruct (yield s this None) as [s' [|]]; [|done].
    rewrite IH. apply scan_perm.
Qed.

Lemma drain_resolving {C} (yield : yield_fn T C) dg fuel fcur st s :
  resolving dg fcur st → length (r_edges st) - fcur ≤ fuel →
  ∃ fcur', resolving dg fcur' (drain yield dg fuel fcur st s).1.1 ∧
    fmax st ≤ fmax (drain yield dg fuel fcur st s).1.1 ∧
    take (fmax st) (r_edges (drain yield dg fuel fcur st s).1.1)
      = take (fmax st) (r_edges st).
Proof.
  revert fcur st s.
  induction fuel as [|fuel IH]; intros fcur st s Hinv Hfuel;
    pose proof (resolving_bounds _ _ _ Hinv) as Hb; simpl.
  - case_decide; [lia|]. by exists fcur.
  - case_decide as Hlt; [|by exists fcur].
    destruct (lookup_lt_is_Some_2 (r_edges st) fcur) as [this Hthis]; [lia|].
    rewrite Hthis. destruct (yield s this None) as [s' [|]]; [|by exists fcur].
    destruct (scan_resolving dg fcur this st Hinv Hlt Hthis) as (Hinv' & Hfm & Htake).
    destruct (IH (S fcur) (scan dg this fcur st) s' Hinv') as (fcur' & ? & ? & Htake').
    { rewrite (Permutation_length (scan_perm _ _ _ _)). lia. }
    exists fcur'. split_and!; [done|lia|].
    rewrite <- Htake. by apply (take_eq_le _ _ _ (fmax (scan dg this fcur st))).
Qed.

(** Driven by the body of [Resolve]'s loop, the outer loop runs to its end
    and has appended the elements it went through. *)
Lemma drain_Resolve_body dg fuel fcur st :
  resolving dg fcur st → length (r_edges st) - fcur ≤ fuel →
  ∃ st', drain Resolve_body dg fuel fcur st (take fcur (r_edges st), None)
           = (st', (take (fmax st') (r_edges st'), None), true) ∧
         resolving dg (fmax st') st'.
Proof.
  revert fcur st.
  induction fuel as [|fuel IH]; intros fcur st Hinv Hfuel;
    pose proof (resolving_bounds _ _ _ Hinv) as Hb; simpl.
  - case_decide; [lia|]. exists st. by replace (fmax st) with fcur by lia.
  - case_decide as Hlt; [|exists st; by replace (fmax st) with fcur by lia].
    destruct (lookup_lt_is_Some_2 (r_edges st) fcur) as [this Hthis]; [lia|].
    rewrite Hthis. simpl.
    destruct (scan_resolving dg fcur this st Hinv Hlt Hthis) as (Hinv' & Hfm & Htake).
    destruct (IH (S fcur) (scan dg this fcur st) Hinv') as (st' & Hst' & ?).
    { rewrite (Permutation_length (scan_perm _ _ _ _)). lia. }
    exists st'. split; [|done]. rewrite <- Hst'. do 3 f_equal.
    rewrite <- (take_S_r _ _ _ Hthis). symmetry.
    by apply (take_eq_le _ _ _ (fmax st)).
Qed.
End drain.

Section validate.
Context {T : Type} `{Countable T} `{!MapRange T}.
Implicit Types (dg : DependencyGraph T) (m : gmap T (gset T)).

Lemma validate_deps_None m deps :
  validate_deps m deps = None ↔ ∀ d, d ∈ deps → is_Some (m !! d).
Proof.
  induction deps as [|dep rest IH]; simpl.
  - split; [|done]. intros _ d Hd. by apply elem_of_nil in Hd.
  - destruct (m !! dep) eqn:Hdep.
    + rewrite IH. split.
      * intros Hrest d [->|Hd]%elem_of_cons; [by eexists|by apply Hrest].
      * intros Hall d Hd. apply Hall. by right.
    + split; [done|]. intros Hall.
      destruct (Hall dep) as [? ?]; [by left|congruence].
Qed.

Lemma validate_deps_Some m deps err :
  validate_deps m deps = Some err →
  ∃ d, d ∈ deps ∧ m !! d = None ∧ err = unknown_error d.
Proof.
  induction deps as [|dep rest IH]; simpl; [done|].
  destruct (m !! dep) eqn:Hdep.
  - intros (d & ? & ? & ?)%IH. exists d. split; [by right|done].
  - intros [= <-]. exists dep. split; [by left|done].
Qed.

Lemma validate_edges_None m es :
  validate_edges m es = None ↔
  ∀ n ds d, (n, ds) ∈ es → d ∈ ds → is_Some (m !! d).
Proof.
  induction es as [|[n ds] rest IH]; simpl.
  - split; [|done]. intros _ n ds d Hn. by apply elem_of_nil in Hn.
  - destruct (validate_deps m (range_deps ds)) eqn:Hds.
    + split; [done|]. intros Hall. exfalso.
      apply validate_deps_Some in Hds as (d & Hd & Hnone & _).
      rewrite (range_deps_perm ds), elem_of_elements in Hd.
      destruct (Hall n ds d) as [? ?]; [by left|done|congruence].
    + rewrite IH. rewrite validate_deps_None in Hds. split.
      * intros Hrest n' ds' d [[= -> ->]|Hin]%elem_of_cons Hd.
        -- apply Hds. by rewrite (range_deps_perm ds), elem_of_elements.
        -- by apply (Hrest n' ds').
      * intros Hall n' ds' d Hin. apply (Hall n' ds'). by right.
Qed.

Lemma validate_edges_Some m es err :
  validate_edges m es = Some err →
  ∃ n ds d, (n, ds) ∈ es ∧ d ∈ ds ∧ m !! d = None ∧ err = unknown_error d.
Proof.
  induction es as [|[n ds] rest IH]; simpl; [done|].
  destruct (validate_deps m (range_deps ds)) eqn:Hds.
  - intros [= <-]. apply validate_deps_Some in Hds as (d & Hd & ? & ?).
    rewrite (range_deps_perm ds), elem_of_elements in Hd.
    exists n, ds, d. split; [by left|done].
  - intros (n' & ds' & d & ? & ?)%IH. exists n', ds', d. split; [by right|done].
Qed.

Lemma validate_None dg :
  validate dg = None ↔
  ∀ n ds d, edgeMap dg !! n = Some ds → d ∈ ds → is_Some (edgeMap dg !! d).
Proof.
  unfold validate. rewrite validate_edges_None. split.
  - intros Hall n ds d Hn. apply (Hall n).
    by rewrite (range_edgeMap_perm (edgeMap dg)), elem_of_map_to_list.
  - intros Hall n ds d Hn. apply (Hall n).
    by rewrite (range_edgeMap_perm (edgeMap dg)), elem_of_map_to_list in Hn.
Qed.

Lemma validate_Some dg err :
  validate dg = Some err →
  ∃ n ds d, edgeMap dg !! n = Some ds ∧ d ∈ ds ∧ edgeMap dg !! d = None ∧
            err = unknown_error d.
Proof.
  unfold validate. intros (n & ds & d & Hn & ?)%validate_edges_Some.
  rewrite (range_edgeMap_perm (edgeMap dg)), elem_of_map_to_list in Hn.
  by exists n, ds, d.
Qed.
End validate.

Section resolve.
Context {T : Type} `{Countable T} `{!Inhabited T} `{!MapRange T}.
Implicit Types (dg : DependencyGraph T) (st : resolver T).

Lemma init_refcounts_lookup dg p :
  p ∈ edges dg →
  init_refcounts dg !! p = Some (Z.of_nat (size (deps_of dg p))).
Proof.
  unfold init_refcounts. generalize (edges dg). intros l.
  induction l as [|q l IH] using rev_ind; [by intros ?%elem_of_nil|].
  rewrite foldl_snoc. intros [Hin| ->%list_elem_of_singleton]%elem_of_app.
  - destruct (decide (p = q)) as [->|]; [by rewrite lookup_insert_eq|].
    rewrite lookup_insert_ne by done. by apply IH.
  - by rewrite lookup_insert_eq.
Qed.

Lemma init_resolving dg :
  NoDup (edges dg) →
  resolving dg 0 {| r_edges := (promote_free dg (edges dg)).1;
                    refcounts := init_refcounts dg;
                    fmax := (promote_free dg (edges dg)).2 |}.
Proof.
  intros Hnd. destruct (promote_free_spec dg (edges dg))
    as [Hlen _ Hpre Hle Hpend Hperm].
  destruct (promote_free dg (edges dg)) as [es fm]; simpl in *.
  split; simpl.
  - by rewrite Hperm.
  - lia.
  - intros j p d Hj Hp Hd. exfalso.
    assert (p ∈ take fm es) as Hin by (apply elem_of_take; eauto).
    rewrite Hpre in Hin. apply list_elem_of_filter in Hin as [Hfree _].
    apply free_empty in Hfree. rewrite Hfree in Hd. by apply not_elem_of_empty in Hd.
  - intros j p Hj Hp. unfold rc_of, remaining; simpl.
    rewrite init_refcounts_lookup; simpl.
    + rewrite difference_empty_L. split; [done|].
      pose proof (lookup_lt_Some _ _ _ Hp).
      assert (¬ free dg p) as Hnf by (apply (Hpend j); [lia|done]).
      unfold free in Hnf. lia.
    + rewrite <- Hperm. by eapply list_elem_of_lookup_2.
Qed.

Lemma ResolveIter_invalid {C} dg (yield : yield_fn T C) s err :
  validate dg = Some err →
  ResolveIter dg yield s =
    (dg, (yield s inhabitant
            (Some (Errorf "validating dependency graph" None err))).1).
Proof. intros Hv. unfold ResolveIter. by rewrite Hv. Qed.

Lemma ResolveIter_frame {C} dg (yield : yield_fn T C) s :
  edgeMap (ResolveIter dg yield s).1 = edgeMap dg ∧
  edges (ResolveIter dg yield s).1 ≡ₚ edges dg.
Proof.
  unfold ResolveIter. destruct (validate dg); [done|].
  pose proof (promoted_perm _ _ _ _ (promote_free_spec dg (edges dg))) as Hperm.
  destruct (promote_free dg (edges dg)) as [es fm]; simpl in *.
  match goal with |- context [drain ?y ?g ?f ?c ?st ?s] =>
    pose proof (drain_perm y g f c st s) as Hd;
    destruct (drain y g f c st s) as [[st' s'] fin] end.
  simpl in *. destruct (_ && _); simpl; by rewrite Hd.
Qed.

Lemma filter_free_pending dg es0 es1 es2 fm :
  es2 ≡ₚ es1 → take fm es2 = take fm es1 →
  take fm es1 = filter (free dg) es0 →
  (∀ j p, fm ≤ j → es1 !! j = Some p → ¬ free dg p) →
  filter (free dg) es2 = filter (free dg) es0.
Proof.
  intros Hperm Htake Hpre Hpend.
  assert (drop fm es2 ≡ₚ drop fm es1) as Hdrop.
  { apply (Permutation_app_inv_l (take fm es1)).
    rewrite <- Htake at 1. by rewrite !take_drop. }
  assert (filter (free dg) (drop fm es2) = []) as Hnil.
  { apply filter_none. intros p Hp. rewrite Hdrop in Hp.
    apply list_elem_of_lookup in Hp as [j Hj]. rewrite lookup_drop in Hj.
    apply (Hpend (fm + j)); [lia|done]. }
  rewrite <- (take_drop fm es2), filter_app, Hnil, app_nil_r, Htake, Hpre.
  by apply list_filter_filter_l.
Qed.

(** The elements without dependencies keep their places. *)
Lemma ResolveIter_free {C} dg (yield : yield_fn T C) s :
  NoDup (edges dg) →
  filter (free dg) (edges (ResolveIter dg yield s).1) = filter (free dg) (edges dg).
Proof.
  intros Hnd. unfold ResolveIter. destruct (validate dg); [done|].
  pose proof (init_resolving dg Hnd) as Hinv.
  destruct (promote_free_spec dg (edges dg)) as [Hlen _ Hpre Hle Hpend Hperm].
  destruct (promote_free dg (edges dg)) as [es fm]; simpl in *.
  match goal with |- context [drain ?y ?g ?f ?c ?st ?s] =>
    pose proof (drain_perm y g f c st s) as Hd;
    destruct (drain_resolving y g f c st s Hinv) as (_ & _ & _ & Htake);
      [simpl; lia|];
    destruct (drain y g f c st s) as [[st' s'] fin] end.
  simpl in *.
  assert (filter (free dg) (r_edges st') = filter (free dg) (edges dg)) as Heq.
  { apply (filter_free_pending _ _ es _ fm); [done|done|..].
    - by rewrite Hpre, firstn_all.
    - intros j p Hj Hp. apply (Hpend j); [|done].
      apply lookup_lt_Some in Hp. lia. }
  by destruct (_ && _).
Qed.

Lemma Resolve_invalid dg err :
  validate dg = Some err →
  Resolve dg = (dg, (None, Some (Errorf "validating dependency graph" None err))).
Proof. intros Hv. unfold Resolve. by rewrite (ResolveIter_invalid _ _ _ err). Qed.

(** On a graph that passes [validate], [Resolve] either returns the stored
    sequence as the algorithm left it, which is then sorted, or the
    circular-dependency error. *)
Lemma Resolve_valid dg :
  NoDup (edges dg) → validate dg = None →
  ∃ es, es ≡ₚ edges dg ∧
    (Resolve dg = ({| edges := es; edgeMap := edgeMap dg |}, (Some es, None)) ∧
     sorted dg es
     ∨
     Resolve dg = ({| edges := es; edgeMap := edgeMap dg |},
                   (None, Some ErrCircularDependency))).
Proof.
  intros Hnd Hv. unfold Resolve, ResolveIter. rewrite Hv.
  pose proof (init_resolving dg Hnd) as Hinv.
  pose proof (promoted_perm _ _ _ _ (promote_free_spec dg (edges dg))) as Hperm.
  destruct (promote_free dg (edges dg)) as [es fm]; simpl in *.
  destruct (drain_Resolve_body dg (length es) 0 _ Hinv) as (st' & Hdrain & Hinv');
    [simpl; lia|].
  cbn [r_edges] in Hdrain. change (take 0 es) with (@nil T) in Hdrain.
  rewrite Hdrain.
  pose proof (drain_perm Resolve_body dg (length es) 0
    {| r_edges := es; refcounts := init_refcounts dg; fmax := fm |} ([], None)) as Hd.
  rewrite Hdrain in Hd. simpl in Hd.
  exists (r_edges st'). split; [by rewrite Hd|].
  destruct (decide (fmax st' = length (r_edges st'))) as [Heq|Hne].
  - left. rewrite bool_decide_eq_true_2 by done. simpl.
    rewrite Heq, firstn_all. split; [done|].
    intros p d [j Hj]%list_elem_of_lookup Hd'.
    destruct (resolving_free _ _ _ Hinv' j p d) as (k & ? & ? & ?); [|done|done|].
    { apply lookup_lt_Some in Hj. lia. }
    by exists k, j.
  - right. by rewrite bool_decide_eq_false_2 by done.
Qed.
End resolve.

Section history.
Context {T : Type} `{Countable T} `{!Inhabited T} `{!MapRange T}.
Implicit Types (dg : DependencyGraph T) (ops : list (op (T:=T))) (o : op (T:=T)).

Lemma foldl_add_dep n (m : gmap T (gset T)) ds :
  is_Some (m !! n) →
  foldl (add_dep n) m ds = <[n := list_to_set ds ∪ default ∅ (m !! n)]> m.
Proof.
  revert m. induction ds as [|d ds IH]; intros m [x Hx]; simpl.
  - rewrite Hx. simpl. rewrite (left_id_L ∅ (∪)). by rewrite insert_id.
  - rewrite IH by (unfold add_dep; rewrite lookup_insert_eq; by eexists).
    unfold add_dep. rewrite lookup_insert_eq, insert_insert_eq. simpl.
    f_equal. set_solver.
Qed.

Lemma Add_edges dg n ds :
  edges (Add dg n ds) =
    if decide (is_Some (edgeMap dg !! n)) then edges dg else edges dg ++ [n].
Proof.
  unfold Add. destruct (edgeMap dg !! n) eqn:Hn; cbn [edges].
  - by rewrite decide_True by (by eexists).
  - rewrite decide_False; [done|]. by intros [? ?].
Qed.

Lemma Add_edgeMap dg n ds :
  edgeMap (Add dg n ds) = <[n := list_to_set ds ∪ deps_of dg n]> (edgeMap dg).
Proof.
  unfold Add, deps_of. destruct (edgeMap dg !! n) eqn:Hn; simpl.
  - rewrite foldl_add_dep by (by eexists). by rewrite Hn.
  - rewrite foldl_add_dep by (rewrite lookup_insert_eq; by eexists).
    by rewrite lookup_insert_eq, insert_insert_eq.
Qed.

Lemma deps_of_Add dg n ds p :
  deps_of (Add dg n ds) p =
    if decide (p = n) then list_to_set ds ∪ deps_of dg n else deps_of dg p.
Proof.
  unfold deps_of at 1. rewrite Add_edgeMap. case_decide as Hp.
  - subst. by rewrite lookup_insert_eq.
  - by rewrite lookup_insert_ne.
Qed.

Lemma free_Add dg n ds p :
  free (Add dg n ds) p ↔ free dg p ∧ (p = n → ds = []).
Proof.
  rewrite !free_empty, deps_of_Add. case_decide as Hp.
  - subst. split.
    + intros Hempty. split; [set_solver|]. intros _.
      destruct ds as [|d ds]; [done|]. set_solver.
    + intros [-> ->]; [done|]. set_solver.
  - naive_solver.
Qed.

Lemma consistent_Add ord dg n ds :
  consistent ord dg → consistent (note_insertion ord (OpAdd n ds)) (Add dg n ds).
Proof.
  intros [Hnd Hperm Hdom Hfree]. simpl.
  assert (∀ l : list T, filter (free (Add dg n ds)) l
            = filter (λ p, p = n → ds = []) (filter (free dg) l)) as Hfilter.
  { intros l. rewrite list_filter_filter. apply list_filter_iff.
    intros p. rewrite free_Add. naive_solver. }
  assert (n ∈ ord ↔ is_Some (edgeMap dg !! n)) as Hn
    by (by rewrite <- Hperm, Hdom).
  split.
  - rewrite Add_edges. case_decide as Hin; [done|].
    apply NoDup_app. split_and!; [done| |apply NoDup_singleton].
    intros p Hp ->%list_elem_of_singleton. by apply Hin, Hdom.
  - rewrite Add_edges. repeat case_decide; try done; try tauto.
    by rewrite Hperm.
  - intros p. rewrite Add_edges, Add_edgeMap, lookup_insert_is_Some.
    case_decide as Hin.
    + rewrite Hdom. destruct (decide (n = p)) as [->|]; naive_solver.
    + rewrite elem_of_app, list_elem_of_singleton, Hdom. naive_solver.
  - rewrite !Hfilter, Add_edges.
    repeat case_decide; try tauto; rewrite ?filter_app; by rewrite Hfree.
Qed.

Lemma consistent_ResolveIter {C} ord dg (yield : yield_fn T C) s :
  consistent ord dg → consistent ord (ResolveIter dg yield s).1.
Proof.
  intros [Hnd Hperm Hdom Hfree].
  destruct (ResolveIter_frame dg yield s) as [Hmap Hedges].
  assert (∀ p, free (ResolveIter dg yield s).1 p ↔ free dg p) as Hiff.
  { intros p. unfold free, deps_of. by rewrite Hmap. }
  split.
  - by rewrite Hedges.
  - by rewrite Hedges.
  - intros p. by rewrite Hedges, Hmap.
  - rewrite !(list_filter_iff _ _ _ Hiff), <- Hfree.
    by apply ResolveIter_free.
Qed.

Lemma run_snoc ops o : run (ops ++ [o]) = apply_op (run ops) o.
Proof. apply foldl_snoc. Qed.

Lemma insertion_order_snoc ops o :
  insertion_order (ops ++ [o]) = note_insertion (insertion_order ops) o.
Proof. apply foldl_snoc. Qed.

Lemma run_consistent ops : consistent (insertion_order ops) (run ops).
Proof.
  induction ops as [|o ops IH] using rev_ind.
  - split; simpl; try done. { apply NoDup_nil_2. }
    intros p. split; [by intros ?%elem_of_nil|].
    intros [? Hp]. by rewrite lookup_empty in Hp.
  - rewrite run_snoc, insertion_order_snoc. destruct o as [n ds|C yield s].
    + by apply consistent_Add.
    + by apply consistent_ResolveIter.
Qed.
End history.

(** * The claims *)

Section claims.
Context {T : Type} `{Countable T} `{!Inhabited T} `{!MapRange T}.
Implicit Types (dg : DependencyGraph T) (ops : list (op (T:=T))).

Lemma elem_of_insertion_order ops n : n ∈ insertion_order ops ↔ n ∈ names ops.
Proof.
  induction ops as [|o ops IH] using rev_ind; [done|].
  rewrite insertion_order_snoc. unfold names. rewrite omap_app, elem_of_app.
  fold (names ops). rewrite <- IH. destruct o as [m ds|C yield s]; simpl.
  - rewrite list_elem_of_singleton. case_decide.
    + naive_solver.
    + rewrite elem_of_app, list_elem_of_singleton. naive_solver.
  - rewrite elem_of_nil. naive_solver.
Qed.

Lemma Resolve_fst dg : (Resolve dg).1 = (ResolveIter dg Resolve_body ([], None)).1.
Proof.
  unfold Resolve. destruct (ResolveIter _ _ _) as [dg' [res [err|]]]; done.
Qed.

Lemma Resolve_Some ops out :
  (Resolve (run ops)).2 = (Some out, None) →
  validate (run ops) = None ∧
  Resolve (run ops)
    = ({| edges := out; edgeMap := edgeMap (run ops) |}, (Some out, None)) ∧
  out ≡ₚ edges (run ops) ∧ sorted (run ops) out.
Proof.
  intros Hres. pose proof (consistent_nodup _ _ (run_consistent ops)) as Hnd.
  destruct (validate (run ops)) as [err|] eqn:Hv.
  { by rewrite (Resolve_invalid _ _ Hv) in Hres. }
  destruct (Resolve_valid _ Hnd Hv) as (es & Hperm & [[Heq Hsorted]|Heq]);
    rewrite Heq in Hres; simplify_eq/=.
  by rewrite Heq.
Qed.

(** C1. Topological validity: when [Resolve] succeeds, every dependency of
    every element of the graph stands strictly before that element in the
    returned list. *)
Theorem Resolve_topological ops out e d :
  (Resolve (run ops)).2 = (Some out, None) →
  e ∈ edges (run ops) → d ∈ deps_of (run ops) e →
  before d e out.
Proof.
  intros (_ & _ & Hperm & Hsorted)%Resolve_Some He Hd.
  apply Hsorted; [|done]. by rewrite Hperm.
Qed.

(** C2. Totality: when [Resolve] succeeds, the returned list holds the names
    that were passed to [Add], each exactly once, so its length is the
    number of distinct names added. *)
Theorem Resolve_total ops out :
  (Resolve (run ops)).2 = (Some out, None) →
  NoDup out ∧ (∀ n, n ∈ out ↔ n ∈ names ops) ∧
  length out = size (list_to_set (names ops) : gset T).
Proof.
  intros (_ & _ & Hperm & _)%Resolve_Some.
  destruct (run_consistent ops) as [Hnd Hord _ _].
  assert (NoDup out) as Hnd' by (by rewrite Hperm).
  assert (∀ n, n ∈ out ↔ n ∈ names ops) as Hin.
  { intros n. by rewrite Hperm, Hord, elem_of_insertion_order. }
  split_and!; [done|done|].
  rewrite <- (size_list_to_set (C:=gset T) out) by done.
  f_equal. apply set_eq. intros n. by rewrite !elem_of_list_to_set.
Qed.

(** C10. [ResolveIter] works in place: after a resolution that succeeded,
    the stored edge sequence of the graph is the returned order, with the
    dependency sets as before, and whatever the caller does next starts from
    that sequence, not from the order of insertion. *)
Theorem Resolve_in_place ops out :
  (Resolve (run ops)).2 = (Some out, None) →
  (Resolve (run ops)).1 = {| edges := out; edgeMap := edgeMap (run ops) |} ∧
  ∀ ops',
    run (ops ++ Resolve_op :: ops')
      = foldl apply_op {| edges := out; edgeMap := edgeMap (run ops) |} ops'.
Proof.
  intros (_ & Heq & _)%Resolve_Some. rewrite Heq. split; [done|].
  intros ops'. unfold run. rewrite foldl_app. simpl.
  fold (run ops). by rewrite <- Resolve_fst, Heq.
Qed.

(** C8. When [Resolve] returns an error, it returns a nil slice. *)
Theorem Resolve_error_nil dg res err :
  (Resolve dg).2 = (res, Some err) → res = None.
Proof.
  unfold Resolve. destruct (ResolveIter _ _ _) as [dg' [l [e|]]]; simpl.
  - by intros [= <- _].
  - done.
Qed.

(** C6, as amended.  A resolution, whatever the consumer does, leaves the
    lookup mapping and with it every dependency set as it was, and it
    neither adds nor removes an edge; the stored edge sequence is permuted
    in place. *)
Theorem ResolveIter_preserves {C} dg (yield : yield_fn T C) s :
  edgeMap (ResolveIter dg yield s).1 = edgeMap dg ∧
  (∀ p, deps_of (ResolveIter dg yield s).1 p = deps_of dg p) ∧
  edges (ResolveIter dg yield s).1 ≡ₚ edges dg ∧
  edgeMap (Resolve dg).1 = edgeMap dg ∧
  edges (Resolve dg).1 ≡ₚ edges dg.
Proof.
  destruct (ResolveIter_frame dg yield s) as [Hmap Hperm].
  split_and!; [done| |done|..].
  - intros p. unfold deps_of. by rewrite Hmap.
  - rewrite Resolve_fst. apply ResolveIter_frame.
  - rewrite Resolve_fst. apply ResolveIter_frame.
Qed.

(** C4. Unknown dependency: when a stored edge depends on a name that was
    never passed to [Add] as a name, [Resolve] fails with an error that
    [errors.Is] an [ErrUnknownDependency] and that carries such a
    dependency, and all [ResolveIter] does is to yield that error pair. *)
Theorem unknown_dependency ops e d :
  e ∈ edges (run ops) → d ∈ deps_of (run ops) e → d ∉ names ops →
  ∃ e' d' err,
    e' ∈ edges (run ops) ∧ d' ∈ deps_of (run ops) e' ∧ (d' ∉ names ops) ∧
    err = Errorf "validating dependency graph" None
            (Errorf "looking up dependency" (Some d') ErrUnknownDependency) ∧
    errors_Is err ErrUnknownDependency = true ∧
    Resolve (run ops) = (run ops, (None, Some err)) ∧
    ∀ C (yield : yield_fn T C) s,
      ResolveIter (run ops) yield s
        = (run ops, (yield s inhabitant (Some err)).1).
Proof.
  intros He Hd Hunknown.
  destruct (run_consistent ops) as [Hnd Hord Hdom _].
  assert (∀ n, n ∈ names ops ↔ is_Some (edgeMap (run ops) !! n)) as Hnames.
  { intros n. by rewrite <- elem_of_insertion_order, <- Hord, Hdom. }
  destruct (validate (run ops)) as [err|] eqn:Hv.
  - destruct (validate_Some _ _ Hv) as (e' & ds & d' & He' & Hd' & Hnone & ->).
    exists e', d', (Errorf "validating dependency graph" None (unknown_error d')).
    split_and!.
    + apply Hdom. by eexists.
    + unfold deps_of. by rewrite He'.
    + rewrite Hnames, Hnone. by intros [? ?].
    + done.
    + reflexivity.
    + by apply Resolve_invalid.
    + intros C yield s. by apply ResolveIter_invalid.
  - exfalso. apply Hunknown, Hnames.
    apply Hdom in He as [ds Hds].
    rewrite validate_None in Hv. apply (Hv e ds); [done|].
    unfold deps_of in Hd. by rewrite Hds in Hd.
Qed.

Lemma sorted_tc dg es x y :
  NoDup es → es ≡ₚ edges dg → sorted dg es →
  tc (depends dg) x y → before y x es.
Proof.
  intros Hnd Hperm Hsorted. induction 1 as [x y [Hx Hy]|x y z [Hx Hy] _ IH].
  - apply Hsorted; [|done]. by rewrite Hperm.
  - apply (before_trans _ y); [done|done|].
    apply Hsorted; [|done]. by rewrite Hperm.
Qed.

(** C3, as amended.  A graph with a dependency cycle, a self-dependency
    included, all of whose dependencies are names that were added, makes
    [Resolve] fail with [ErrCircularDependency] and a nil slice. *)
Theorem cycle_detected ops :
  (∀ e d, e ∈ edges (run ops) → d ∈ deps_of (run ops) e → d ∈ names ops) →
  has_cycle (run ops) →
  (Resolve (run ops)).2 = (None, Some ErrCircularDependency) ∧
  errors_Is (ErrCircularDependency (T:=T)) ErrCircularDependency = true.
Proof.
  intros Hknown [x Hx]. split; [|reflexivity].
  destruct (run_consistent ops) as [Hnd Hord Hdom _].
  assert (validate (run ops) = None) as Hv.
  { apply validate_None. intros n ds d Hn Hd.
    rewrite <- Hdom, Hord, elem_of_insertion_order.
    apply (Hknown n); [apply Hdom; by eexists|].
    unfold deps_of. by rewrite Hn. }
  destruct (Resolve_valid _ Hnd Hv) as (es & Hperm & [[Heq Hsorted]|Heq]).
  - exfalso. apply (before_irrefl x es); [by rewrite Hperm|].
    apply (sorted_tc (run ops)); [by rewrite Hperm|done..].
  - by rewrite Heq.
Qed.

(** When [Resolve] succeeds, two elements that have no dependencies at all
    come out in the order of their first insertion. *)
Lemma free_elements_stable ops out x y :
  (Resolve (run ops)).2 = (Some out, None) →
  deps_of (run ops) x = ∅ → deps_of (run ops) y = ∅ →
  before x y out ↔ before x y (insertion_order ops).
Proof.
  intros (_ & Heq & _)%Resolve_Some Hx%free_empty Hy%free_empty.
  pose proof (consistent_ResolveIter _ _ Resolve_body ([], None)
                (run_consistent ops)) as Hcons.
  rewrite <- Resolve_fst, Heq in Hcons.
  pose proof (consistent_free _ _ Hcons) as Hfree. simpl in Hfree.
  set (dg' := {| edges := out; edgeMap := edgeMap (run ops) |}) in *.
  assert (free dg' x ∧ free dg' y) as [Hx' Hy'] by done.
  by rewrite <- (before_filter (free dg') x y out),
             <- (before_filter (free dg') x y (insertion_order ops)),
             Hfree.
Qed.

Lemma drain_traced {C} (yield : yield_fn T C) dg fuel fcur st s log :
  ∃ new,
    drain (traced yield) dg fuel fcur st (s, log)
      = ((drain yield dg fuel fcur st s).1.1,
         ((drain yield dg fuel fcur st s).1.2, log ++ new),
         (drain yield dg fuel fcur st s).2) ∧
    Forall (λ e, e.1.2 = None) new ∧
    ((drain yield dg fuel fcur st s).2 = true → Forall (λ e, e.2 = true) new).
Proof.
  revert fcur st s log.
  induction fuel as [|fuel IH]; intros fcur st s log; simpl.
  - exists []. rewrite app_nil_r.
    case_decide; [destruct (r_edges st !! fcur)|]; done.
  - case_decide; [|exists []; by rewrite app_nil_r].
    destruct (r_edges st !! fcur) as [this|]; [|exists []; by rewrite app_nil_r].
    unfold traced at 1. simpl.
    destruct (yield s this None) as [s' [|]]; simpl.
    + destruct (IH (S fcur) (scan dg this fcur st) s' (log ++ [(this, None, true)]))
        as (new & -> & Hnone & Hmore).
      exists ((this, None, true) :: new). rewrite <- (assoc_L (++)). simpl.
      split_and!; [done|by constructor|]. intros Hfin. constructor; auto.
    + exists [(this, None, false)]. split_and!; [done|by repeat constructor|done].
Qed.

(** With enough fuel for the edges that are left, the outer loop ends early
    only because the consumer said so: the last pair it was given is an
    element, and its answer was to stop. *)
Lemma drain_cancelled {C} (yield : yield_fn T C) dg fuel fcur st s log :
  resolving dg fcur st → length (r_edges st) - fcur ≤ fuel →
  (drain yield dg fuel fcur st s).2 = false →
  ∃ el new,
    (drain (traced yield) dg fuel fcur st (s, log)).1.2.2
      = log ++ new ++ [(el, None, false)].
Proof.
  revert fcur st s log.
  induction fuel as [|fuel IH]; intros fcur st s log Hinv Hfuel;
    pose proof (resolving_bounds _ _ _ Hinv) as Hb; simpl.
  - case_decide; [lia|done].
  - case_decide as Hlt; [|done].
    destruct (lookup_lt_is_Some_2 (r_edges st) fcur) as [this Hthis]; [lia|].
    rewrite Hthis. unfold traced at 1. simpl.
    destruct (yield s this None) as [s' [|]]; simpl.
    + intros Hfin.
      destruct (scan_resolving dg fcur this st Hinv Hlt Hthis) as (Hinv' & _ & _).
      destruct (IH (S fcur) (scan dg this fcur st) s' (log ++ [(this, None, true)])
                  Hinv') as (el & new & ->); [|done|].
      { rewrite (Permutation_length (scan_perm _ _ _ _)). lia. }
      exists el, ((this, None, true) :: new). by rewrite <- (assoc_L (++)).
    + intros _. by exists this, [].
Qed.

(** Keeping the log changes nothing else. *)
Lemma ResolveIter_traced {C} dg (yield : yield_fn T C) s log :
  (ResolveIter dg (traced yield) (s, log)).1 = (ResolveIter dg yield s).1 ∧
  (ResolveIter dg (traced yield) (s, log)).2.1 = (ResolveIter dg yield s).2.
Proof.
  unfold ResolveIter. destruct (validate dg) as [err|].
  - unfold traced; simpl. by destruct (yield s inhabitant _).
  - destruct (promote_free dg (edges dg)) as [es fm].
    match goal with |- context [drain (traced yield) ?g ?f ?c ?st (s, log)] =>
      destruct (drain_traced yield g f c st s log) as (new & -> & _);
      destruct (drain yield g f c st s) as [[st' s'] fin] end.
    simpl. destruct (_ && _); [|done].
    unfold traced; simpl. by destruct (yield s' inhabitant _).
Qed.

(** C7. Cancellation: when the consumer of [ResolveIter] answers an element
    by asking for no more, no circular-dependency error is yielded,
    whatever the rest of the graph looks like. *)
Theorem cancel_no_circular {C} dg (yield : yield_fn T C) s el :
  (el, None, false) ∈ (ResolveIter dg (traced yield) (s, [])).2.2 →
  ∀ el' err more,
    (el', Some err, more) ∈ (ResolveIter dg (traced yield) (s, [])).2.2 →
    errors_Is err ErrCircularDependency = false.
Proof.
  unfold ResolveIter. destruct (validate dg) as [err0|].
  - unfold traced; simpl. destruct (yield s inhabitant _) as [s' more0]; simpl.
    by intros [=]%list_elem_of_singleton.
  - destruct (promote_free dg (edges dg)) as [es fm].
    match goal with |- context [drain (traced yield) ?g ?f ?c ?st (s, [])] =>
      destruct (drain_traced yield g f c st s []) as (new & -> & Hnone & Hmore);
      destruct (drain yield g f c st s) as [[st' s'] fin] end.
    simpl in *. rewrite Forall_forall in Hnone.
    destruct (fin && _) eqn:Hfin; simpl.
    + apply andb_true_iff in Hfin as [-> _].
      specialize (Hmore eq_refl). rewrite Forall_forall in Hmore.
      unfold traced; simpl. destruct (yield s' inhabitant _) as [s'' more0]; simpl.
      intros [Hin|[=]%list_elem_of_singleton]%elem_of_app.
      by apply Hmore in Hin.
    + intros _ el' err more Hin. by apply Hnone in Hin.
Qed.

Lemma graph_eq dg1 dg2 :
  edges dg1 = edges dg2 → edgeMap dg1 = edgeMap dg2 → dg1 = dg2.
Proof. destruct dg1, dg2; simpl; congruence. Qed.

Lemma Add_Add dg x a b : Add (Add dg x a) x b = Add dg x (a ++ b).
Proof.
  apply graph_eq.
  - rewrite !Add_edges, Add_edgeMap, lookup_insert_eq.
    rewrite decide_True by (by eexists). done.
  - rewrite !Add_edgeMap, deps_of_Add, decide_True, insert_insert_eq by done.
    f_equal. rewrite list_to_set_app_L. set_solver.
Qed.

Lemma Add_comm dg x b y c :
  is_Some (edgeMap dg !! x) → Add (Add dg y c) x b = Add (Add dg x b) y c.
Proof.
  intros Hx. apply graph_eq.
  - rewrite !Add_edges.
    repeat case_decide;
      repeat match goal with
             | Hm : context [edgeMap (Add _ _ _)] |- _ =>
                 rewrite Add_edgeMap, lookup_insert_is_Some in Hm
             end; naive_solver.
  - rewrite !Add_edgeMap, !deps_of_Add.
    destruct (decide (x = y)) as [->|Hne].
    + rewrite !decide_True, !insert_insert_eq by done. f_equal. set_solver.
    + rewrite !decide_False by done. by apply insert_insert_ne.
Qed.

Lemma Add_known dg x a y :
  is_Some (edgeMap dg !! y) → is_Some (edgeMap (Add dg x a) !! y).
Proof.
  intros Hy. rewrite Add_edgeMap, lookup_insert_is_Some.
  destruct (decide (x = y)); auto.
Qed.

Lemma Add_after_adds dg x b adds :
  is_Some (edgeMap dg !! x) →
  Add (foldl apply_op dg (add_ops adds)) x b
    = foldl apply_op (Add dg x b) (add_ops adds).
Proof.
  revert dg. induction adds as [|[y c] adds IH]; intros dg Hx; simpl; [done|].
  rewrite IH by (by apply Add_known). by rewrite Add_comm.
Qed.

Lemma run_add_ops_edges adds :
  edges (run (add_ops adds)) = insertion_order (add_ops adds).
Proof.
  induction adds as [|[n ds] adds IH] using rev_ind; [done|].
  unfold add_ops. rewrite fmap_app. cbn [fmap list_fmap fst snd].
  fold (add_ops adds).
  rewrite run_snoc, insertion_order_snoc. cbn [apply_op note_insertion].
  destruct (run_consistent (add_ops adds)) as [_ Hord Hdom _].
  rewrite Add_edges, IH.
  assert (is_Some (edgeMap (run (add_ops adds)) !! n)
          ↔ n ∈ insertion_order (add_ops adds)) as Hiff
    by (by rewrite <- Hdom, Hord).
  repeat case_decide; tauto.
Qed.

Lemma run_add_ops_edgeMap adds :
  edgeMap (run (add_ops adds)) = accumulated adds.
Proof.
  induction adds as [|[n ds] adds IH] using rev_ind; [done|].
  unfold add_ops, accumulated. rewrite fmap_app, foldl_snoc.
  cbn [fmap list_fmap fst snd]. fold (add_ops adds). fold (accumulated adds).
  rewrite run_snoc. cbn [apply_op]. rewrite Add_edgeMap. unfold deps_of.
  by rewrite IH.
Qed.

Lemma Add_again dg n ds :
  is_Some (edgeMap dg !! n) → list_to_set ds ⊆ deps_of dg n → Add dg n ds = dg.
Proof.
  intros [x Hx] Hsub. apply graph_eq.
  - rewrite Add_edges. by rewrite decide_True by (by eexists).
  - rewrite Add_edgeMap. apply insert_id. rewrite Hx. f_equal.
    unfold deps_of in *. rewrite Hx in *. simpl in *. set_solver.
Qed.

Lemma apply_op_keeps dg o n d :
  is_Some (edgeMap dg !! n) → d ∈ deps_of dg n →
  is_Some (edgeMap (apply_op dg o) !! n) ∧ d ∈ deps_of (apply_op dg o) n.
Proof.
  intros Hn Hd. destruct o as [x a|C yield s]; simpl.
  - split; [by apply Add_known|]. rewrite deps_of_Add. case_decide; set_solver.
  - destruct (ResolveIter_frame dg yield s) as [Hmap _].
    unfold deps_of. by rewrite Hmap.
Qed.

Lemma foldl_apply_op_keeps dg ops n d :
  is_Some (edgeMap dg !! n) → d ∈ deps_of dg n →
  is_Some (edgeMap (foldl apply_op dg ops) !! n) ∧
  d ∈ deps_of (foldl apply_op dg ops) n.
Proof.
  revert dg. induction ops as [|o ops IH]; intros dg Hn Hd; simpl; [done|].
  by destruct (apply_op_keeps dg o n d Hn Hd); apply IH.
Qed.

(** C9, as amended.  A graph that was built by [Add] alone is its order of
    first insertion with the accumulated dependency sets, so these two
    decide the resolved order.  In every graph state, to add once more a
    pair of name and dependency that was added before changes nothing,
    whatever was done in between.  [Add(x, a)], further calls of [Add],
    then [Add(x, b)] give the same graph, so the same resolved order, as
    [Add(x, a, b)] in place of the first call. *)
Theorem Add_laws :
  (∀ adds,
     run (add_ops adds)
       = {| edges := insertion_order (add_ops adds);
            edgeMap := accumulated adds |}) ∧
  (∀ dg name dep ops,
     Add (foldl apply_op (Add dg name [dep]) ops) name [dep]
       = foldl apply_op (Add dg name [dep]) ops) ∧
  (∀ dg x a b adds,
     Add (foldl apply_op (Add dg x a) (add_ops adds)) x b
       = foldl apply_op (Add dg x (a ++ b)) (add_ops adds)) ∧
  (∀ dg x a b adds,
     Resolve (Add (foldl apply_op (Add dg x a) (add_ops adds)) x b)
       = Resolve (foldl apply_op (Add dg x (a ++ b)) (add_ops adds))).
Proof.
  assert (∀ dg x a, is_Some (edgeMap (Add dg x a) !! x)) as Hknown.
  { intros dg x a. rewrite Add_edgeMap, lookup_insert_eq. by eexists. }
  split_and!.
  - intros adds. apply graph_eq; simpl.
    + apply run_add_ops_edges.
    + apply run_add_ops_edgeMap.
  - intros dg name dep ops.
    destruct (foldl_apply_op_keeps (Add dg name [dep]) ops name dep) as [Hn Hd].
    { done. }
    { rewrite deps_of_Add, decide_True by done. set_solver. }
    apply Add_again; [done|]. set_solver.
  - intros dg x a b adds. by rewrite Add_after_adds, Add_Add.
  - intros dg x a b adds. by rewrite Add_after_adds, Add_Add.
Qed.
End claims.

(** * The scenarios, run *)

Example scenario1_resolved :
  (Resolve (run scenario1)).2 = (Some ["A"; "C"; "E"; "B"; "D"], None).
Proof. vm_compute. reflexivity. Qed.

Example scenario3_resolved :
  (Resolve (run scenario3)).2 = (None, Some ErrCircularDependency).
Proof. vm_compute. reflexivity. Qed.

Example early_exit_result :
  (ResolveIter (run early_exit) until_A []).2 = ["B"; "C"; "D"; "G"; "A"].
Proof. vm_compute. reflexivity. Qed.

(** [ResolveIter] yields the free element and then the error; [Resolve]
    returns the error alone. *)
Example self_dependent_yields :
  (ResolveIter (run self_dependent) keep_all []).2
    = [("A", None); ("", Some ErrCircularDependency)].
Proof. vm_compute. reflexivity. Qed.

(** The first resolution leaves [B], [D], [A] as the stored sequence, and the
    second one starts from it: the orders differ although the calls of [Add]
    are the same. *)
Example with_resolution_resolved :
  (Resolve (run with_resolution)).2 = (Some ["D"; "B"; "A"], None).
Proof. vm_compute. reflexivity. Qed.

Example without_resolution_resolved :
  (Resolve (run without_resolution)).2 = (Some ["D"; "A"; "B"], None).
Proof. vm_compute. reflexivity. Qed.

Lemma Resolve_topological_witness : before "A" "D" ["A"; "C"; "E"; "B"; "D"].
Proof. apply (Resolve_topological scenario1 _ "D" "A"); compute_done. Defined.

Lemma Resolve_total_witness :
  NoDup ["A"; "C"; "E"; "B"; "D"] ∧
  (∀ n, n ∈ ["A"; "C"; "E"; "B"; "D"] ↔ n ∈ names scenario1) ∧
  length ["A"; "C"; "E"; "B"; "D"] = size (list_to_set (names scenario1) : gset string).
Proof. apply (Resolve_total scenario1). compute_done. Defined.

Lemma Resolve_in_place_witness :
  (Resolve (run scenario1)).1
    = {| edges := ["A"; "C"; "E"; "B"; "D"]; edgeMap := edgeMap (run scenario1) |} ∧
  ∀ ops',
    run (scenario1 ++ Resolve_op :: ops')
      = foldl apply_op
          {| edges := ["A"; "C"; "E"; "B"; "D"]; edgeMap := edgeMap (run scenario1) |}
          ops'.
Proof. apply (Resolve_in_place scenario1). compute_done. Defined.

Lemma scenario3_cycle : has_cycle (run scenario3).
Proof.
  exists "A".
  apply (tc_l _ _ "B"); [split; compute_done|].
  apply (tc_l _ _ "C"); [split; compute_done|].
  apply (tc_l _ _ "D"); [split; compute_done|].
  apply tc_once. split; compute_done.
Qed.

Lemma cycle_detected_witness :
  (Resolve (run scenario3)).2 = (None, Some ErrCircularDependency) ∧
  errors_Is (ErrCircularDependency (T:=string)) ErrCircularDependency = true.
Proof.
  apply (cycle_detected scenario3); [|apply scenario3_cycle].
  intros e d He Hd.
  assert (Forall (λ e, set_Forall (λ d, d ∈ names scenario3)
                         (deps_of (run scenario3) e))
            (edges (run scenario3))) as Hall by compute_done.
  rewrite Forall_forall in Hall. by apply (Hall e He d).
Defined.

(** An element that depends on itself and on a name that was never added:
    the graph has a cycle, and the error of [Resolve] is the unknown
    dependency. *)
Lemma cycle_with_unknown_dependency :
  ¬ (∀ ops : list (op (T:=string)),
       has_cycle (run ops) →
       ∃ err, (Resolve (run ops)).2 = (None, Some err) ∧
              errors_Is err ErrCircularDependency = true).
Proof.
  intros Hclaim.
  destruct (Hclaim [OpAdd "A" ["A"; "X"]]) as (err & Hres & His).
  - exists "A". apply tc_once. split; compute_done.
  - vm_compute in Hres. injection Hres as <-. vm_compute in His. done.
Qed.

Lemma unknown_dependency_witness :
  ∃ e' d' err,
    e' ∈ edges (run scenario4) ∧ d' ∈ deps_of (run scenario4) e' ∧
    (d' ∉ names scenario4) ∧
    err = Errorf "validating dependency graph" None
            (Errorf "looking up dependency" (Some d') ErrUnknownDependency) ∧
    errors_Is err ErrUnknownDependency = true ∧
    Resolve (run scenario4) = (run scenario4, (None, Some err)) ∧
    ∀ C (yield : yield_fn string C) s,
      ResolveIter (run scenario4) yield s
        = (run scenario4, (yield s inhabitant (Some err)).1).
Proof. apply (unknown_dependency scenario4 "A" "X"); compute_done. Defined.

(** In scenario 1, [B] and [C] do not depend on each other, [B] was inserted
    before [C], and [C] comes out before [B]. *)
Lemma unconstrained_order_not_kept :
  ¬ (∀ (ops : list (op (T:=string))) out x y,
       (Resolve (run ops)).2 = (Some out, None) →
       x ∈ out → y ∈ out →
       ¬ tc (depends (run ops)) x y → ¬ tc (depends (run ops)) y x →
       (before x y out ↔ before x y (insertion_order ops))).
Proof.
  intros Hclaim.
  assert (deps_of (run scenario1) "A" = ∅) as HdA by compute_done.
  assert (deps_of (run scenario1) "B" = {["A"]}) as HdB by compute_done.
  assert (deps_of (run scenario1) "C" = ∅) as HdC by compute_done.
  assert (∀ x, ¬ tc (depends (run scenario1)) "A" x) as HA.
  { intros x Htc. inversion Htc as [? ? [_ Hd]|? z ? [_ Hd] _]; subst;
      rewrite HdA in Hd; by apply not_elem_of_empty in Hd. }
  destruct (Hclaim scenario1 ["A"; "C"; "E"; "B"; "D"] "B" "C") as [_ Hback];
    try compute_done.
  - intros Htc. inversion Htc as [? ? [_ Hd]|? z ? [_ Hd] Htc']; subst;
      rewrite HdB in Hd; apply elem_of_singleton in Hd; [done|].
    subst z. by apply HA in Htc'.
  - intros Htc. inversion Htc as [? ? [_ Hd]|? z ? [_ Hd] _]; subst;
      rewrite HdC in Hd; by apply not_elem_of_empty in Hd.
  - assert (before "B" "C" (insertion_order scenario1)) as Hord.
    { assert (insertion_order scenario1 = ["A"; "B"; "C"; "D"; "E"]) as ->
        by compute_done.
      exists 1, 2. split_and!; [done|done|lia]. }
    apply Hback in Hord as (i & j & Hi & Hj & Hlt).
    repeat (destruct i as [|i]; simplify_eq/=).
    repeat (destruct j as [|j]; simplify_eq/=; try lia).
Qed.

(** [B] depends on [A] and was added first: the resolution moves [A] to the
    front of the stored sequence. *)
Lemma stored_sequence_permuted :
  ¬ (∀ ops : list (op (T:=string)),
       edges (Resolve (run ops)).1 = edges (run ops) ∧
       edgeMap (Resolve (run ops)).1 = edgeMap (run ops)).
Proof.
  intros Hclaim. destruct (Hclaim [OpAdd "B" ["A"]; OpAdd "A" []]) as [Hedges _].
  vm_compute in Hedges. done.
Qed.

Lemma cancel_no_circular_witness :
  ("A", None, false) ∈ (ResolveIter (run early_exit) (traced until_A) ([], [])).2.2 ∧
  ∀ el' err more,
    (el', Some err, more)
      ∈ (ResolveIter (run early_exit) (traced until_A) ([], [])).2.2 →
    errors_Is err ErrCircularDependency = false.
Proof.
  split; [compute_done|].
  apply (cancel_no_circular (run early_exit) until_A [] "A"). compute_done.
Defined.

Lemma Resolve_error_nil_witness : (Resolve (run self_dependent)).2.1 = None.
Proof.
  apply (Resolve_error_nil (run self_dependent) _ ErrCircularDependency).
  compute_done.
Defined.

(** [Add(B)], further calls and a resolution, then [Add(B, D)], against
    [Add(B, D)] in place of the first call: the resolved orders are
    [D B A] and [D A B]. *)
Lemma additivity_across_resolution :
  ¬ (∀ (dg : DependencyGraph string) x a b (ops : list op),
       (Resolve (Add (foldl apply_op (Add dg x a) ops) x b)).2
         = (Resolve (foldl apply_op (Add dg x (a ++ b)) ops)).2).
Proof.
  intros Hclaim.
  specialize (Hclaim NewDependencyGraph "B" [] ["D"]
                [OpAdd "A" ["D"]; OpAdd "D" []; Resolve_op]).
  vm_compute in Hclaim. done.
Qed.

(** * Further properties *)

(** ** The order in which edges are promoted *)

Section ordered.
Context {T : Type} `{Countable T}.
Implicit Types (dg : DependencyGraph T) (st : resolver T).

Lemma remaining_ready dg es c p : remaining dg (take c es) p = 0 ↔ ready dg es c p.
Proof.
  unfold remaining, ready. rewrite size_empty_iff. split.
  - intros Hempty d Hd.
    destruct (decide (d ∈ (list_to_set (take c es) : gset T))); [done|].
    exfalso. apply (not_elem_of_empty (C:=gset T) d). rewrite <- Hempty. set_solver.
  - set_solver.
Qed.

Lemma ready_mono dg es c c' p : c ≤ c' → ready dg es c p → ready dg es c' p.
Proof.
  unfold ready. intros Hle Hr d Hd. apply Hr in Hd.
  rewrite elem_of_list_to_set, elem_of_take in *.
  destruct Hd as (k & ? & ?). exists k. split; [done|lia].
Qed.

Lemma ready_take dg es es' c p :
  take c es' = take c es → ready dg es' c p ↔ ready dg es c p.
Proof. unfold ready. by intros ->. Qed.

Lemma promote_free_ordered dg es :
  ordered dg (promote_free dg es).1 (promote_free dg es).2.
Proof.
  destruct (promote_free_spec dg es) as [_ _ Hpre _ _ _].
  destruct (promote_free dg es) as [es1 fm]; simpl in *.
  intros j1 j2 p1 p2 c Hj Hp1 _ _.
  assert (p1 ∈ take fm es1) as Hin by (apply elem_of_take; exists j1; split; [done|lia]).
  rewrite Hpre in Hin. apply list_elem_of_filter in Hin as [Hfree _].
  apply free_empty in Hfree. unfold ready. rewrite Hfree. set_solver.
Qed.

Lemma scanning_ready dg fcur i st j p :
  scanning dg fcur i st → j < fmax st → r_edges st !! j = Some p →
  ready dg (r_edges st) (S fcur) p.
Proof.
  intros Hs Hj Hp d Hd.
  destruct (scanning_free _ _ _ _ Hs j p d Hj Hp Hd) as (k & _ & Hk & Hle).
  rewrite elem_of_list_to_set, elem_of_take. exists k. split; [done|].
  case_decide; lia.
Qed.

Lemma scan_step_ordered dg fcur this i st :
  scanning dg fcur i st → r_edges st !! fcur = Some this →
  fcur < i → i < length (r_edges st) →
  ordered dg (r_edges st) (fmax st) →
  ordered dg (r_edges (scan_step dg this st i)) (fmax (scan_step dg this st i)).
Proof.
  intros Hs Hthis Hfi Hi Hord.
  destruct (scan_step_scanning dg fcur this i st Hs Hthis Hfi Hi)
    as (Hs' & Hfm & Htake & Hlen).
  pose proof (scanning_bounds _ _ _ _ Hs) as Hb.
  pose proof (scanning_nodup _ _ _ _ Hs) as Hnd.
  intros j1 j2 p1 p2 c Hj Hp1 Hp2 Hready.
  set (st' := scan_step dg this st i) in *.
  assert (∀ j, j < fmax st → r_edges st' !! j = r_edges st !! j) as Hsame.
  { intros j Hlt. rewrite <- (lookup_take_lt (r_edges st') (fmax st)) by done.
    rewrite Htake. by apply lookup_take_lt. }
  destruct (decide (S fcur ≤ c)) as [Hc|Hc].
  { apply (ready_mono _ _ (S fcur)); [done|].
    apply (scanning_ready dg fcur (S i) st' j1); [done|lia|done]. }
  assert (take c (r_edges st') = take c (r_edges st)) as Htc.
  { apply (take_eq_le _ _ _ (fmax st)); [lia|done]. }
  apply (ready_take _ _ _ _ _ Htc) in Hready. apply (ready_take _ _ _ _ _ Htc).
  destruct (decide (j2 < fmax st)) as [Hj2|Hj2].
  - apply (Hord j1 j2 p1 p2); [lia|by rewrite <- Hsame by lia..|done].
  - (* the edge at [j2] was promoted in this round: it depends on [this] *)
    exfalso. assert (fmax st' = S (fmax st) ∧ this ∈ deps_of dg p2) as [Hfm' Hin].
    { unfold st', scan_step in *.
      destruct (r_edges st !! i) as [p|] eqn:Hp; [|simpl in *; lia].
      destruct (decide (this ∈ deps_of dg p)) as [Hin|]; [|simpl in *; lia].
      destruct (decide _) as [Hz|]; simpl in *; [|lia].
      split; [done|]. assert (j2 = fmax st) as -> by lia.
      pose proof (scanning_promote_in_range dg fcur i st this p Hs Hthis Hp Hin).
      rewrite lookup_swap, decide_True in Hp2 by lia. congruence. }
    apply Hready in Hin. rewrite elem_of_list_to_set, elem_of_take in Hin.
    destruct Hin as (k & Hk & Hlt).
    pose proof (NoDup_lookup _ _ _ _ Hnd Hk Hthis). lia.
Qed.

Lemma scan_ordered dg fcur this st :
  resolving dg fcur st → fcur < fmax st → r_edges st !! fcur = Some this →
  ordered dg (r_edges st) (fmax st) →
  ordered dg (r_edges (scan dg this fcur st)) (fmax (scan dg this fcur st)).
Proof.
  intros Hinv Hlt Hthis Hord. unfold scan.
  pose proof (resolving_bounds _ _ _ Hinv) as Hb.
  cut (∀ n, S fcur + n ≤ length (r_edges st) →
         let st' := foldl (scan_step dg this) st (seq (S fcur) n) in
         scanning dg fcur (S fcur + n) st' ∧ r_edges st' !! fcur = Some this ∧
         length (r_edges st') = length (r_edges st) ∧
         ordered dg (r_edges st') (fmax st')).
  { intros Hcut. apply (Hcut (length (r_edges st) - S fcur)). lia. }
  induction n as [|n IH]; intros Hn; cbv zeta.
  - simpl. rewrite Nat.add_0_r. split_and!; try done. by apply resolving_scanning.
  - rewrite seq_S, foldl_snoc.
    destruct IH as (Hs & Hthis' & Hlen & Hord'); [lia|].
    set (st1 := foldl (scan_step dg this) st (seq (S fcur) n)) in *.
    destruct (scan_step_scanning dg fcur this (S fcur + n) st1)
      as (Hs' & Hfm' & Htake' & Hlen'); [done|done|lia|lia|].
    replace (S fcur + S n) with (S (S fcur + n)) by lia.
    split_and!; [done| |lia|].
    + rewrite <- Hthis'.
      rewrite <- (lookup_take_lt (r_edges (scan_step _ _ _ _)) (fmax st1)),
              <- (lookup_take_lt (r_edges st1) (fmax st1)), Htake'; [done|..];
        pose proof (scanning_bounds _ _ _ _ Hs); lia.
    + apply (scan_step_ordered dg fcur); [done|done|lia|lia|done].
Qed.

Lemma drain_ordered {C} (yield : yield_fn T C) dg fuel fcur st s :
  resolving dg fcur st → length (r_edges st) - fcur ≤ fuel →
  ordered dg (r_edges st) (fmax st) →
  ordered dg (r_edges (drain yield dg fuel fcur st s).1.1)
             (fmax (drain yield dg fuel fcur st s).1.1).
Proof.
  revert fcur st s.
  induction fuel as [|fuel IH]; intros fcur st s Hinv Hfuel Hord;
    pose proof (resolving_bounds _ _ _ Hinv) as Hb; simpl.
  - case_decide; [lia|done].
  - case_decide as Hlt; [|done].
    destruct (lookup_lt_is_Some_2 (r_edges st) fcur) as [this Hthis]; [lia|].
    rewrite Hthis. destruct (yield s this None) as [s' [|]]; [|done].
    destruct (scan_resolving dg fcur this st Hinv Hlt Hthis) as (Hinv' & _ & _).
    apply IH; [done| |by apply (scan_ordered dg fcur)].
    rewrite (Permutation_length (scan_perm _ _ _ _)). lia.
Qed.
End ordered.

Section final.
Context {T : Type} `{Countable T} `{!Inhabited T} `{!MapRange T}.
Implicit Types (dg : DependencyGraph T) (st : resolver T).

Lemma resolving_frontier dg c st :
  resolving dg c st → ordered dg (r_edges st) (fmax st) →
  frontier dg (r_edges st) c (fmax st).
Proof.
  intros [Hnd Hb Hfree Hpend] Hord. split; [done|lia| | |done].
  - intros j p Hj Hp d Hd. destruct (Hfree j p d Hj Hp Hd) as (k & ? & ? & ?).
    rewrite elem_of_list_to_set, elem_of_take. exists k. split; [done|lia].
  - intros j p Hj Hp Hready. destruct (Hpend j p Hj Hp) as [_ Hpos].
    apply remaining_ready in Hready. lia.
Qed.

(** What [Resolve] does on a graph that passes [validate]. *)
Lemma Resolve_settled dg :
  NoDup (edges dg) → validate dg = None →
  ∃ es fm, es ≡ₚ edges dg ∧ frontier dg es fm fm ∧
    (ResolveIter dg Resolve_body ([], None)).2.1 = take fm es ∧
    Resolve dg = ({| edges := es; edgeMap := edgeMap dg |},
                  if decide (fm = length es) then (Some es, None)
                  else (None, Some ErrCircularDependency)).
Proof.
  intros Hnd Hv. unfold Resolve, ResolveIter. rewrite Hv.
  pose proof (init_resolving dg Hnd) as Hinv.
  pose proof (promote_free_ordered dg (edges dg)) as Hord.
  pose proof (promoted_perm _ _ _ _ (promote_free_spec dg (edges dg))) as Hperm.
  destruct (promote_free dg (edges dg)) as [es fm]; simpl in *.
  destruct (drain_Resolve_body dg (length es) 0 _ Hinv) as (st' & Hdrain & Hinv');
    [simpl; lia|].
  cbn [r_edges] in Hdrain. change (take 0 es) with (@nil T) in Hdrain.
  pose proof (drain_perm Resolve_body dg (length es) 0
    {| r_edges := es; refcounts := init_refcounts dg; fmax := fm |} ([], None)) as Hd.
  pose proof (drain_ordered Resolve_body dg (length es) 0
    {| r_edges := es; refcounts := init_refcounts dg; fmax := fm |} ([], None) Hinv)
    as Hord'.
  rewrite Hdrain in Hd, Hord' |- *. simpl in Hd, Hord'.
  exists (r_edges st'), (fmax st'). split_and!.
  - by rewrite Hd.
  - apply resolving_frontier; [done|]. apply Hord'; [lia|done].
  - simpl. by destruct (bool_decide _).
  - destruct (decide (fmax st' = length (r_edges st'))) as [Heq|Hne].
    + rewrite bool_decide_eq_true_2 by done. simpl. by rewrite Heq, firstn_all.
    + by rewrite bool_decide_eq_false_2 by done.
Qed.
End final.

(** ** Stable ordering *)

Section stable.
Context {T : Type} `{Countable T} `{!Inhabited T} `{!MapRange T}.
Implicit Types (dg : DependencyGraph T) (ops : list (op (T:=T))).

(** C5, as amended.  When [Resolve] succeeds, two elements that have no
    dependencies at all come out in the order of their first insertion; and
    an element whose dependencies are all among the first [c] elements of
    the result, for a [c] at which those of another element are not, comes
    out before the other, whatever the order of insertion: the free list is
    a queue. *)
Theorem stable_ordering ops out x y :
  (Resolve (run ops)).2 = (Some out, None) →
  x ∈ out → y ∈ out →
  (deps_of (run ops) x = ∅ → deps_of (run ops) y = ∅ →
   (before x y out ↔ before x y (insertion_order ops))) ∧
  (∀ c, deps_of (run ops) x ⊆ list_to_set (take c out) →
        ¬ deps_of (run ops) y ⊆ list_to_set (take c out) →
        before x y out).
Proof.
  intros Hres [jx Hjx]%list_elem_of_lookup [jy Hjy]%list_elem_of_lookup.
  split; [intros; by apply free_elements_stable|].
  intros c Hcx Hcy. pose proof Hres as (Hv & Heq & _)%Resolve_Some.
  pose proof (consistent_nodup _ _ (run_consistent ops)) as Hnd.
  destruct (Resolve_settled _ Hnd Hv) as (es & fm & _ & Hset & _ & Heq').
  rewrite Heq' in Heq. case_decide as Hfm; [|done]. simplify_eq.
  exists jx, jy. split_and!; [done|done|].
  destruct (decide (jx < jy)) as [|Hge]; [done|]. exfalso.
  assert (jx ≠ jy) by (intros ->; by simplify_eq).
  apply Hcy. apply (frontier_ordered _ _ _ _ Hset jy jx y x c); [|done..].
  apply lookup_lt_Some in Hjx. lia.
Qed.
End stable.

(** ** When resolution fails and when it succeeds *)

Section cycles.
Context {T : Type} `{Countable T}.

(** In a finite, non-empty set in which every element has a successor, some
    element reaches itself. *)
Lemma cycle_of_successors (R : T → T → Prop) (X : gset T) :
  X ≠ ∅ → (∀ x, x ∈ X → ∃ y, y ∈ X ∧ R x y) → ∃ x, x ∈ X ∧ tc R x x.
Proof.
  remember (size X) as n eqn:Hn. revert R X Hn.
  induction n as [|n IH]; intros R X Hn Hne Hsucc.
  { symmetry in Hn. apply size_empty_iff in Hn. by unfold_leibniz. }
  apply set_choose_L in Hne as [x Hx].
  destruct (Hsucc x Hx) as (y & Hy & Hxy).
  destruct (decide (y = x)) as [->|Hyx].
  { exists x. split; [done|]. by apply tc_once. }
  set (R' := λ a b, R a b ∨ (R a x ∧ R x b)).
  assert (∀ a b, tc R' a b → tc R a b) as Htc.
  { intros a b. induction 1 as [a b [Hab|[Hax Hxb]]|a b c [Hab|[Hax Hxb]] _ IH'].
    - by apply tc_once.
    - by apply (tc_l _ _ x); [|apply tc_once].
    - by apply (tc_l _ _ b).
    - apply (tc_l _ _ x); [done|]. by apply (tc_l _ _ b). }
  destruct (IH R' (X ∖ {[x]})) as (z & Hz & Hzz).
  - rewrite size_difference by set_solver. rewrite size_singleton. lia.
  - intros Hempty. apply (not_elem_of_empty (C:=gset T) y). rewrite <- Hempty. set_solver.
  - intros a Ha. destruct (Hsucc a) as (b & Hb & Hab); [set_solver|].
    destruct (decide (b = x)) as [->|Hbx].
    + exists y. split; [set_solver|]. right. done.
    + exists b. split; [set_solver|]. by left.
  - exists z. split; [set_solver|]. by apply Htc.
Qed.
End cycles.

Section outcome.
Context {T : Type} `{Countable T} `{!Inhabited T} `{!MapRange T}.
Implicit Types (dg : DependencyGraph T) (ops : list (op (T:=T))).

Lemma validate_closed ops : validate (run ops) = None ↔ closed (run ops).
Proof.
  destruct (run_consistent ops) as [_ _ Hdom _].
  rewrite validate_None. split.
  - intros Hv e d He Hd. apply Hdom in He as [ds Hds].
    apply Hdom, (Hv e ds); [done|]. unfold deps_of in Hd. by rewrite Hds in Hd.
  - intros Hc n ds d Hn Hd. apply Hdom, (Hc n); [apply Hdom; by eexists|].
    unfold deps_of. by rewrite Hn.
Qed.

Lemma settled_stuck_cycle dg es fm :
  es ≡ₚ edges dg → closed dg → frontier dg es fm fm → fm ≠ length es →
  has_cycle dg.
Proof.
  intros Hperm Hclosed [Hnd Hb _ Hstuck _] Hne.
  destruct (cycle_of_successors (depends dg) (list_to_set (drop fm es)))
    as (x & _ & Hx).
  - destruct (lookup_lt_is_Some_2 es fm) as [p Hp]; [lia|].
    intros Hempty. apply (not_elem_of_empty (C:=gset T) p). rewrite <- Hempty.
    apply elem_of_list_to_set, list_elem_of_lookup. exists 0.
    by rewrite lookup_drop, Nat.add_0_r.
  - intros p [j Hj]%elem_of_list_to_set%list_elem_of_lookup.
    rewrite lookup_drop in Hj.
    assert (p ∈ edges dg) as Hp.
    { rewrite <- Hperm. by eapply list_elem_of_lookup_2. }
    assert (deps_of dg p ∖ list_to_set (take fm es) ≠ ∅) as Hout.
    { intros Hempty. apply (Hstuck (fm + j) p); [lia|done|].
      intros d Hd. destruct (decide (d ∈ (list_to_set (take fm es) : gset T))); [done|].
      exfalso. apply (not_elem_of_empty (C:=gset T) d). rewrite <- Hempty. set_solver. }
    apply set_choose_L in Hout as [d [Hd Hnot]%elem_of_difference].
    exists d. split; [|done].
    assert (d ∈ es) as [k Hk]%list_elem_of_lookup by (rewrite Hperm; by apply (Hclosed p)).
    apply elem_of_list_to_set, list_elem_of_lookup.
    destruct (decide (k < fm)) as [Hlt|Hge].
    + exfalso. apply Hnot, elem_of_list_to_set, elem_of_take. by exists k.
    + exists (k - fm). rewrite lookup_drop. by replace (fm + (k - fm)) with k by lia.
  - by exists x.
Qed.

(** X1. When [Resolve] fails with [ErrCircularDependency] itself, every
    dependency is an element and some element depends on itself, directly
    or through others: the error is never a false alarm. *)
Theorem circular_error_sound ops :
  (Resolve (run ops)).2 = (None, Some ErrCircularDependency) →
  closed (run ops) ∧ has_cycle (run ops).
Proof.
  intros Hres. pose proof (consistent_nodup _ _ (run_consistent ops)) as Hnd.
  destruct (validate (run ops)) as [err|] eqn:Hv.
  { by rewrite (Resolve_invalid _ _ Hv) in Hres. }
  apply validate_closed in Hv as Hclosed. split; [done|].
  destruct (Resolve_settled _ Hnd Hv) as (es & fm & Hperm & Hset & _ & Heq).
  rewrite Heq in Hres. simpl in Hres. case_decide; [done|].
  by apply (settled_stuck_cycle _ es fm).
Qed.

Lemma Resolve_acyclic ops :
  closed (run ops) → ¬ has_cycle (run ops) →
  ∃ out, (Resolve (run ops)).2 = (Some out, None).
Proof.
  intros Hclosed Hacyclic.
  pose proof (consistent_nodup _ _ (run_consistent ops)) as Hnd.
  apply validate_closed in Hclosed as Hv.
  destruct (Resolve_settled _ Hnd Hv) as (es & fm & Hperm & Hset & _ & Heq).
  rewrite Heq. simpl. case_decide; [by eexists|].
  destruct Hacyclic. by apply (settled_stuck_cycle _ es fm).
Qed.

(** X2. [Resolve] succeeds exactly on the graphs in which every dependency
    is an element and no element depends on itself, directly or through
    others. *)
Theorem Resolve_succeeds_iff ops :
  (∃ out, (Resolve (run ops)).2 = (Some out, None)) ↔
  closed (run ops) ∧ ¬ has_cycle (run ops).
Proof.
  pose proof (consistent_nodup _ _ (run_consistent ops)) as Hnd. split.
  - intros [out (Hv & _ & Hperm & Hsorted)%Resolve_Some].
    split; [by apply validate_closed|]. intros [x Hx].
    apply (before_irrefl x out); [by rewrite Hperm|].
    by apply (sorted_tc (run ops)); [rewrite Hperm|..].
  - intros [Hclosed Hacyclic]. by apply Resolve_acyclic.
Qed.
End outcome.

(** ** The operations, and the lazy mode against the eager one *)

Section more.
Context {T : Type} `{Countable T} `{!Inhabited T} `{!MapRange T}.
Implicit Types (dg : DependencyGraph T) (ops : list (op (T:=T))).

(** X3. [Add] appends a name that is new and leaves the stored sequence
    alone when the name is known; it adds the dependencies to those of the
    name and touches no other edge. *)
Theorem Add_spec dg name deps :
  edges (Add dg name deps)
    = (if decide (is_Some (edgeMap dg !! name)) then edges dg
       else edges dg ++ [name]) ∧
  is_Some (edgeMap (Add dg name deps) !! name) ∧
  deps_of (Add dg name deps) name = list_to_set deps ∪ deps_of dg name ∧
  ∀ p, p ≠ name → edgeMap (Add dg name deps) !! p = edgeMap dg !! p.
Proof.
  split_and!.
  - apply Add_edges.
  - rewrite Add_edgeMap, lookup_insert_eq. by eexists.
  - by rewrite deps_of_Add, decide_True.
  - intros p Hp. by rewrite Add_edgeMap, lookup_insert_ne.
Qed.

(** X4. [validate] passes exactly when every dependency of every stored
    edge is a key of [edgeMap], in whatever order the maps are ranged over;
    the error it returns otherwise wraps [ErrUnknownDependency] and carries a
    dependency that is no key. *)
Theorem validate_spec dg :
  (validate dg = None ↔
   ∀ n ds d, edgeMap dg !! n = Some ds → d ∈ ds → is_Some (edgeMap dg !! d)) ∧
  (∀ err, validate dg = Some err →
     ∃ n ds d, edgeMap dg !! n = Some ds ∧ d ∈ ds ∧ edgeMap dg !! d = None ∧
       err = Errorf "looking up dependency" (Some d) ErrUnknownDependency).
Proof. split; [apply validate_None|apply validate_Some]. Qed.

(** X5. Whatever the caller does, the stored sequence holds every name
    that was passed to [Add] once, and these names are the keys of
    [edgeMap]. *)
Theorem graph_invariant ops :
  NoDup (edges (run ops)) ∧
  (∀ p, p ∈ edges (run ops) ↔ p ∈ names ops) ∧
  dom (edgeMap (run ops)) = list_to_set (edges (run ops)).
Proof.
  destruct (run_consistent ops) as [Hnd Hord Hdom _]. split_and!; [done|..].
  - intros p. by rewrite Hord, elem_of_insertion_order.
  - apply set_eq. intros p. by rewrite elem_of_dom, elem_of_list_to_set, Hdom.
Qed.

Lemma drain_traced_more {C} (yield : yield_fn T C) dg fuel fcur st s log new :
  (drain (traced yield) dg fuel fcur st (s, log)).1.2.2 = log ++ new →
  ∀ i e, new !! i = Some e → S i < length new → e.2 = true.
Proof.
  revert fcur st s log new.
  induction fuel as [|fuel IH]; intros fcur st s log new; simpl.
  - assert (new = [] → ∀ i e, new !! i = Some e → S i < length new → e.2 = true)
      as Hnil by (by intros ->).
    case_decide; [destruct (r_edges st !! fcur)|]; simpl;
      intros Heq; apply Hnil, (inj (app log)); by rewrite app_nil_r.
  - assert (new = [] → ∀ i e, new !! i = Some e → S i < length new → e.2 = true)
      as Hnil by (by intros ->).
    case_decide; [|intros Heq; apply Hnil, (inj (app log)); by rewrite app_nil_r].
    destruct (r_edges st !! fcur) as [this|];
      [|intros Heq; apply Hnil, (inj (app log)); by rewrite app_nil_r].
    unfold traced at 1. simpl.
    destruct (yield s this None) as [s' [|]]; simpl.
    + destruct (drain_traced yield dg fuel (S fcur) (scan dg this fcur st) s'
                  (log ++ [(this, None, true)])) as (new1 & Heq1 & _).
      intros Heq. pose proof (IH _ _ _ _ new1 ltac:(by rewrite Heq1)) as Hnew1.
      rewrite Heq1 in Heq. simpl in Heq. rewrite <- (assoc_L (++)) in Heq.
      apply (inj (app log)) in Heq. subst new.
      intros [|i] e Hi Hlen; simplify_eq/=; [done|].
      apply (Hnew1 i); [done|lia].
    + intros Heq%(inj (app log)). subst new.
      intros [|i] e Hi Hlen; simplify_eq/=. lia.
Qed.

Lemma drain_lazy {C} (yield : yield_fn T C) dg fuel fcur st s log res :
  ∃ new rest,
    (drain (traced yield) dg fuel fcur st (s, log)).1.2.2 = log ++ new ∧
    Forall (λ e, e.1.2 = None) new ∧
    (drain Resolve_body dg fuel fcur st (res, None)).1.2
      = (res ++ ((λ e, e.1.1) <$> new) ++ rest, None) ∧
    (Forall (λ e, e.2 = true) new →
     rest = [] ∧
     (drain (traced yield) dg fuel fcur st (s, log)).1.1
       = (drain Resolve_body dg fuel fcur st (res, None)).1.1 ∧
     (drain (traced yield) dg fuel fcur st (s, log)).2
       = (drain Resolve_body dg fuel fcur st (res, None)).2).
Proof.
  revert fcur st s log res.
  induction fuel as [|fuel IH]; intros fcur st s log res; simpl.
  - exists [], []. rewrite !app_nil_r.
    case_decide; [destruct (r_edges st !! fcur)|]; done.
  - case_decide; [|exists [], []; by rewrite !app_nil_r].
    destruct (r_edges st !! fcur) as [this|];
      [|exists [], []; by rewrite !app_nil_r].
    assert (traced yield (s, log) this None
            = (((yield s this None).1,
                log ++ [(this, None, (yield s this None).2)]),
               (yield s this None).2)) as ->.
    { unfold traced; simpl. by destruct (yield s this None). }
    destruct (IH (S fcur) (scan dg this fcur st) (yield s this None).1
                (log ++ [(this, None, true)]) (res ++ [this]))
      as (new & rest & Heq & Hnone & Hres & Hall).
    destruct (yield s this None) as [s' [|]]; simpl in *.
    + exists ((this, None, true) :: new), rest.
      rewrite Heq, Hres, fmap_cons, <- !(assoc_L (++)).
      split_and!; [done|by constructor|done|].
      intros Hmore. apply Hall. by inversion Hmore.
    + exists [(this, None, false)], (((λ e, e.1.1) <$> new) ++ rest).
      rewrite Hres, <- !(assoc_L (++)).
      split_and!; [done|by repeat constructor|done|].
      intros Hmore. inversion Hmore; simplify_eq/=.
Qed.

(** X6. The lazy and the eager mode agree: when [Resolve] succeeds, the
    elements that [ResolveIter] yields to any consumer are a prefix of the
    list that [Resolve] returns, and all of it when the consumer never asks
    to stop. *)
Theorem ResolveIter_prefix {C} dg (yield : yield_fn T C) s out :
  (Resolve dg).2 = (Some out, None) →
  yielded (ResolveIter dg (traced yield) (s, [])).2.2 `prefix_of` out ∧
  (Forall (λ e, e.2 = true) (ResolveIter dg (traced yield) (s, [])).2.2 →
   yielded (ResolveIter dg (traced yield) (s, [])).2.2 = out).
Proof.
  unfold Resolve, ResolveIter. destruct (validate dg) as [err0|]; [done|].
  destruct (promote_free dg (edges dg)) as [es fm].
  match goal with |- context [drain (traced yield) ?g ?f ?c ?st (s, [])] =>
    destruct (drain_lazy yield g f c st s [] [])
      as (new & rest & Heq & Hnone & Hres & Hall);
    destruct (drain (traced yield) g f c st (s, [])) as [[st1 [s1 log1]] fin1];
    destruct (drain Resolve_body g f c st ([], None)) as [[st2 [res2 ret2]] fin2] end.
  simpl in *. simplify_eq/=.
  assert (yielded new = (λ e, e.1.1) <$> new) as Hnew.
  { unfold yielded. f_equal. clear -Hnone.
    induction Hnone as [|e new He _ IH]; [done|].
    by rewrite filter_cons_True, IH. }
  destruct (fin2 && _) eqn:Hfin2; simpl; [done|]. intros [= <-].
  destruct (fin1 && _) eqn:Hfin1; simpl.
  - unfold traced; simpl. destruct (yield s1 inhabitant _) as [s'' more0]; simpl.
    unfold yielded in *. rewrite filter_app, filter_cons_False, filter_nil by done.
    rewrite app_nil_r, Hnew. split.
    + by eexists.
    + intros [Hmore _]%Forall_app. destruct (Hall Hmore) as (-> & _).
      by rewrite app_nil_r.
  - rewrite Hnew. split.
    + by eexists.
    + intros Hmore. destruct (Hall Hmore) as (-> & _). by rewrite app_nil_r.
Qed.

Lemma filter_all {A} (P : A → Prop) `{!∀ x, Decision (P x)} (l : list A) :
  (∀ x, x ∈ l → P x) → filter P l = l.
Proof.
  induction l as [|x l IH]; intros Hall; [done|].
  rewrite filter_cons_True by (apply Hall; by left).
  f_equal. apply IH. intros y Hy. apply Hall. by right.
Qed.

(** On a graph that passes [validate], the sequence a resolution leaves
    behind starts with the free edges, in the order they had. *)
Lemma ResolveIter_free_first {C} dg (yield : yield_fn T C) s :
  NoDup (edges dg) → validate dg = None →
  ∃ rest, edges (ResolveIter dg yield s).1 = filter (free dg) (edges dg) ++ rest ∧
          ∀ p, p ∈ rest → ¬ free dg p.
Proof.
  intros Hnd Hv. unfold ResolveIter. rewrite Hv.
  pose proof (init_resolving dg Hnd) as Hinv.
  destruct (promote_free_spec dg (edges dg)) as [Hlen _ Hpre Hle Hpend Hperm].
  destruct (promote_free dg (edges dg)) as [es fm]; simpl in *.
  match goal with |- context [drain ?y ?g ?f ?c ?st ?s] =>
    pose proof (drain_perm y g f c st s) as Hd;
    destruct (drain_resolving y g f c st s Hinv) as (_ & _ & _ & Htake);
      [simpl; lia|];
    destruct (drain y g f c st s) as [[st' s'] fin] end.
  simpl in *. rewrite firstn_all in Hpre.
  exists (drop fm (r_edges st')). split.
  - assert (edges (if fin && negb (bool_decide (fmax st' = length (r_edges st')))
                   then ({| edges := r_edges st'; edgeMap := edgeMap dg |},
                         (yield s' inhabitant (Some ErrCircularDependency)).1)
                   else ({| edges := r_edges st'; edgeMap := edgeMap dg |}, s')).1
            = r_edges st') as -> by (by destruct (_ && _)).
    by rewrite <- Hpre, <- Htake, take_drop.
  - intros p Hp.
    assert (drop fm (r_edges st') ≡ₚ drop fm es) as Hdrop.
    { apply (Permutation_app_inv_l (take fm es)).
      rewrite <- Htake at 1. by rewrite !take_drop. }
    rewrite Hdrop in Hp. apply list_elem_of_lookup in Hp as [j Hj].
    rewrite lookup_drop in Hj. apply (Hpend (fm + j)); [|done].
    apply lookup_lt_Some in Hj. lia.
Qed.

(** X7. The elements without dependencies come first in the result of
    [Resolve], in the order of their first insertion, and nothing else in
    the result is free. *)
Theorem free_elements_first ops out :
  (Resolve (run ops)).2 = (Some out, None) →
  ∃ rest, out = filter (free (run ops)) (insertion_order ops) ++ rest ∧
          Forall (λ p, ¬ free (run ops) p) rest.
Proof.
  intros (Hv & Heq & _)%Resolve_Some.
  destruct (run_consistent ops) as [Hnd _ _ Hfree].
  destruct (ResolveIter_free_first (run ops) Resolve_body ([], None) Hnd Hv)
    as (rest & Hedges & Hrest).
  rewrite <- Resolve_fst, Heq in Hedges. simpl in Hedges.
  exists rest. split; [by rewrite <- Hfree|]. by apply Forall_forall.
Qed.

Lemma no_dependencies_acyclic dg :
  (∀ p, p ∈ edges dg → deps_of dg p = ∅) → closed dg ∧ ¬ has_cycle dg.
Proof.
  intros Hempty. split.
  - intros e d He Hd. rewrite (Hempty e He) in Hd. by apply not_elem_of_empty in Hd.
  - intros [x Hx]. inversion Hx as [? ? [He Hd]|? y ? [He Hd] _]; subst;
      rewrite (Hempty x He) in Hd; by apply not_elem_of_empty in Hd.
Qed.

(** X8. A graph without any dependency resolves to the order of first
    insertion, and [Resolve] leaves it as it is. *)
Theorem Resolve_no_dependencies ops :
  (∀ p, p ∈ edges (run ops) → deps_of (run ops) p = ∅) →
  Resolve (run ops) = (run ops, (Some (insertion_order ops), None)).
Proof.
  intros Hempty.
  destruct (no_dependencies_acyclic _ Hempty) as [Hclosed Hacyclic].
  destruct (Resolve_acyclic ops Hclosed Hacyclic) as [out Hout].
  apply Resolve_Some in Hout as (Hv & Heq & Hperm & _).
  destruct (run_consistent ops) as [Hnd Hord _ Hfree].
  destruct (ResolveIter_free_first (run ops) Resolve_body ([], None) Hnd Hv)
    as (rest & Hedges & Hrest).
  rewrite <- Resolve_fst, Heq in Hedges. simpl in Hedges.
  assert (∀ p, p ∈ edges (run ops) → free (run ops) p) as Hall.
  { intros p Hp. apply free_empty. by apply Hempty. }
  assert (rest = []) as ->.
  { destruct rest as [|p rest]; [done|]. exfalso.
    apply (Hrest p); [by left|]. apply Hall. rewrite <- Hperm, Hedges.
    apply elem_of_app. right. by left. }
  rewrite app_nil_r, filter_all in Hedges by done.
  assert (edges (run ops) = insertion_order ops) as Hins.
  { rewrite <- (filter_all (free (run ops)) (edges (run ops))) by done.
    rewrite Hfree. apply filter_all. intros p Hp. apply Hall. by rewrite Hord. }
  rewrite Heq, Hedges, <- Hins. by destruct (run ops).
Qed.
End more.

(** ** A resolution after another *)

Section rerun.
Context {T : Type} `{Countable T} `{!Inhabited T} `{!MapRange T}.
Implicit Types (dg : DependencyGraph T) (st : resolver T).

Lemma swap_same {A} (l : list A) i : swap l i i = l.
Proof.
  unfold swap. destruct (l !! i) as [x|] eqn:Hx; [|done].
  by rewrite !(list_insert_id l i x Hx).
Qed.

Lemma ready_free dg es p : ready dg es 0 p ↔ free dg p.
Proof.
  rewrite free_empty. unfold ready. simpl. set_solver.
Qed.

(** On such a sequence the first loop swaps every free edge with itself. *)
Lemma promote_free_fixed dg es c fm :
  frontier dg es c fm → (promote_free dg es).1 = es.
Proof.
  intros [Hnd Hb Hsorted Hstuck Hord]. unfold promote_free.
  cut (∀ n, n ≤ length es →
         ∃ f, foldl (promote_step dg) (es, 0) (seq 0 n) = (es, f) ∧ f ≤ n ∧
              (f < n → ∃ q, es !! f = Some q ∧ ¬ free dg q)).
  { intros Hcut. destruct (Hcut (length es)) as (f & -> & _); done. }
  induction n as [|n IH]; intros Hn.
  - exists 0. split_and!; [done|done|lia].
  - destruct IH as (f & Heq & Hle & Hpend); [lia|].
    rewrite seq_S, foldl_snoc, Heq. simpl.
    destruct (lookup_lt_is_Some_2 es n) as [p Hp]; [lia|].
    unfold promote_step; simpl. rewrite Hp.
    destruct (decide (size (deps_of dg p) = 0)) as [Hfree|Hnfree].
    + assert (f = n) as ->.
      { destruct (decide (f = n)) as [|Hne]; [done|]. exfalso.
        destruct Hpend as (q & Hq & Hnq); [lia|]. apply Hnq.
        assert (ready dg es 0 p) as Hr0 by (by apply ready_free).
        assert (n < fm).
        { destruct (decide (n < fm)) as [|Hge]; [done|]. exfalso.
          apply (Hstuck n p); [lia|done|]. apply (ready_mono _ _ 0); [lia|done]. }
        apply (ready_free dg es). apply (Hord f n q p); [lia|done..]. }
      exists (S n). rewrite swap_same. split_and!; [done|lia|lia].
    + exists f. split_and!; [done|lia|]. intros _.
      destruct (decide (f = n)) as [->|Hne]; [by exists p|].
      apply Hpend. lia.
Qed.

Lemma resolving_fmax_le dg es c fm fcur st :
  frontier dg es c fm → resolving dg fcur st → r_edges st = es → fcur ≤ c →
  fmax st ≤ fm.
Proof.
  intros [_ Hb _ Hstuck _] [_ Hb' Hfree _] Hes Hle. subst es.
  destruct (decide (fmax st ≤ fm)) as [|Hgt]; [done|]. exfalso.
  destruct (lookup_lt_is_Some_2 (r_edges st) fm) as [p Hp]; [lia|].
  apply (Hstuck fm p); [lia|done|].
  intros d Hd. destruct (Hfree fm p d) as (k & ? & ? & ?); [lia|done|done|].
  rewrite elem_of_list_to_set, elem_of_take. exists k. split; [done|lia].
Qed.

Lemma scan_step_fixed dg es c fm fcur this i st :
  frontier dg es c fm → scanning dg fcur i st → r_edges st = es →
  r_edges st !! fcur = Some this → fcur < i → i < length (r_edges st) →
  S fcur ≤ c →
  r_edges (scan_step dg this st i) = es.
Proof.
  intros Hset Hs Hes Hthis Hfi Hi Hfm.
  destruct (scan_step_scanning dg fcur this i st Hs Hthis Hfi Hi)
    as (Hs' & _ & Htake & _).
  pose proof (scanning_bounds _ _ _ _ Hs) as Hb.
  revert Hs' Htake. unfold scan_step.
  destruct (r_edges st !! i) as [p|] eqn:Hp; [|done].
  destruct (decide (this ∈ deps_of dg p)) as [Hin|]; [|done].
  destruct (decide _) as [Hz|]; simpl; [|done].
  intros Hs' Htake.
  pose proof (scanning_promote_in_range dg fcur i st this p Hs Hthis Hp Hin) as Hr.
  assert (ready dg es (S fcur) p) as Hready.
  { rewrite <- Hes.
    apply (ready_take dg _ (swap (r_edges st) (fmax st) i)).
    { symmetry. apply (take_eq_le _ _ _ (fmax st)); [lia|done]. }
    apply (scanning_ready dg fcur (S i) _ (fmax st) p Hs'); simpl; [lia|].
    rewrite lookup_swap, decide_True by lia. done. }
  assert (fmax st = i) as ->; [|by rewrite swap_same].
  destruct (decide (fmax st = i)) as [|Hne]; [done|]. exfalso.
  destruct (lookup_lt_is_Some_2 (r_edges st) (fmax st)) as [q Hq]; [lia|].
  destruct (scanning_pending _ _ _ _ Hs (fmax st) q) as [_ Hpos]; [lia|done|].
  cbv zeta in Hpos. rewrite decide_True in Hpos by lia.
  assert (i < fm).
  { destruct (decide (i < fm)) as [|Hge]; [done|]. exfalso.
    apply (frontier_stuck _ _ _ _ Hset i p); [lia|by rewrite <- Hes|].
    by apply (ready_mono _ _ (S fcur)). }
  assert (ready dg es (S fcur) q) as Hq'.
  { apply (frontier_ordered _ _ _ _ Hset (fmax st) i q p); [lia|by rewrite <- Hes..|done]. }
  rewrite <- Hes in Hq'. apply remaining_ready in Hq'. lia.
Qed.

Lemma scan_fixed dg es c fm fcur this st :
  frontier dg es c fm → resolving dg fcur st → r_edges st = es →
  fcur < fmax st → r_edges st !! fcur = Some this → S fcur ≤ c →
  r_edges (scan dg this fcur st) = es.
Proof.
  intros Hset Hinv Hes Hlt Hthis Hfm. unfold scan.
  pose proof (resolving_bounds _ _ _ Hinv) as Hb.
  cut (∀ n, S fcur + n ≤ length (r_edges st) →
         let st' := foldl (scan_step dg this) st (seq (S fcur) n) in
         scanning dg fcur (S fcur + n) st' ∧ r_edges st' = es).
  { intros Hcut. apply (Hcut (length (r_edges st) - S fcur)). lia. }
  induction n as [|n IH]; intros Hn; cbv zeta.
  - simpl. rewrite Nat.add_0_r. split; [by apply resolving_scanning|done].
  - rewrite seq_S, foldl_snoc.
    destruct IH as (Hs & Hes'); [lia|].
    set (st1 := foldl (scan_step dg this) st (seq (S fcur) n)) in *.
    assert (r_edges st1 !! fcur = Some this) as Hthis' by (by rewrite Hes', <- Hes).
    assert (length (r_edges st1) = length (r_edges st)) as Hlen by (by rewrite Hes', Hes).
    destruct (scan_step_scanning dg fcur this (S fcur + n) st1)
      as (Hs' & _); [done|done|lia|lia|].
    replace (S fcur + S n) with (S (S fcur + n)) by lia.
    split; [done|].
    apply (scan_step_fixed dg es c fm fcur); [done|done|done|done|lia|lia|done].
Qed.
End rerun.

Section passes.
Context {T : Type} `{Countable T} `{!Inhabited T} `{!MapRange T}.
Implicit Types (dg : DependencyGraph T) (st : resolver T).
Implicit Types (ops : list (op (T:=T))).

(** The loops read the graph through its deps sets only. *)
Lemma promote_free_ext dg dg' es :
  edgeMap dg = edgeMap dg' → promote_free dg es = promote_free dg' es.
Proof.
  intros Heq. unfold promote_free. generalize (seq 0 (length es)) (es, 0).
  intros l. induction l as [|i l IH]; intros acc; [done|]. simpl.
  rewrite <- IH. f_equal. unfold promote_step.
  destruct (acc.1 !! i); [|done]. unfold deps_of. by rewrite Heq.
Qed.

Lemma scan_ext dg dg' this fcur st :
  edgeMap dg = edgeMap dg' → scan dg this fcur st = scan dg' this fcur st.
Proof.
  intros Heq. unfold scan. generalize (seq (S fcur) (length (r_edges st) - S fcur)).
  intros l. revert st. induction l as [|i l IH]; intros st; [done|]. simpl.
  rewrite <- IH. f_equal. unfold scan_step.
  destruct (r_edges st !! i); [|done]. unfold deps_of. by rewrite Heq.
Qed.

Lemma drain_ext {C} (yield : yield_fn T C) dg dg' fuel fcur st s :
  edgeMap dg = edgeMap dg' →
  drain yield dg fuel fcur st s = drain yield dg' fuel fcur st s.
Proof.
  intros Heq. revert fcur st s.
  induction fuel as [|fuel IH]; intros fcur st s; simpl; [done|].
  case_decide; [|done]. destruct (r_edges st !! fcur) as [this|]; [|done].
  destruct (yield s this None) as [s' [|]]; [|done].
  by rewrite IH, (scan_ext dg dg').
Qed.

Lemma resolving_ext dg dg' fcur st :
  edgeMap dg = edgeMap dg' → resolving dg fcur st → resolving dg' fcur st.
Proof.
  intros Heq [Hnd Hb Hfree Hpend].
  assert (∀ p, deps_of dg' p = deps_of dg p) as Hdeps.
  { intros p. unfold deps_of. by rewrite Heq. }
  split; [done|done| |].
  - intros j p d. rewrite Hdeps. apply Hfree.
  - intros j p. unfold remaining. rewrite Hdeps. apply Hpend.
Qed.

(** The loop driven by the body of [Resolve] goes through the same states
    whatever it has collected. *)
Lemma drain_Resolve_body_state dg fuel fcur st a a' :
  (drain Resolve_body dg fuel fcur st a).1.1
  = (drain Resolve_body dg fuel fcur st a').1.1.
Proof.
  revert fcur st a a'.
  induction fuel as [|fuel IH]; intros fcur st a a'; simpl.
  - by case_decide.
  - case_decide; [|done]. destruct (r_edges st !! fcur) as [this|]; [|done].
    simpl. apply IH.
Qed.

(** Wherever a consumer makes the loop stop, the loop driven by the body of
    [Resolve] comes through the same state. *)
Lemma drain_through {C} (yield : yield_fn T C) dg fuel fcur st s :
  resolving dg fcur st → length (r_edges st) - fcur ≤ fuel →
  ∃ c fuel',
    resolving dg c (drain yield dg fuel fcur st s).1.1 ∧
    length (r_edges (drain yield dg fuel fcur st s).1.1) - c ≤ fuel' ∧
    ∀ a, (drain Resolve_body dg fuel fcur st a).1.1
         = (drain Resolve_body dg fuel' c (drain yield dg fuel fcur st s).1.1 a).1.1.
Proof.
  revert fcur st s.
  induction fuel as [|fuel IH]; intros fcur st s Hinv Hfuel;
    pose proof (resolving_bounds _ _ _ Hinv) as Hb.
  - exists fcur, 0. simpl. case_decide; [lia|]. simpl. split_and!; [done|lia|].
    intros a. by case_decide.
  - simpl. case_decide as Hlt.
    2:{ exists fcur, (S fuel). simpl. split_and!; [done|lia|].
        intros a. by case_decide. }
    destruct (lookup_lt_is_Some_2 (r_edges st) fcur) as [this Hthis]; [lia|].
    rewrite Hthis. destruct (yield s this None) as [s' [|]].
    2:{ exists fcur, (S fuel). simpl. split_and!; [done|lia|].
        intros a. case_decide; [|done]. by rewrite Hthis. }
    destruct (scan_resolving dg fcur this st Hinv Hlt Hthis) as (Hinv' & _ & _).
    destruct (IH (S fcur) (scan dg this fcur st) s' Hinv') as (c & fuel' & ? & ? & Heq).
    { rewrite (Permutation_length (scan_perm _ _ _ _)). lia. }
    exists c, fuel'. split_and!; [done..|]. intros a.
    rewrite <- (drain_Resolve_body_state dg fuel' c _ (a.1 ++ [this], None) a), <- Heq.
    done.
Qed.

(** The invariant at a cursor determines [fmax]. *)
Lemma resolving_fmax dg c st1 st2 :
  resolving dg c st1 → resolving dg c st2 → r_edges st1 = r_edges st2 →
  fmax st1 = fmax st2.
Proof.
  cut (∀ st1 st2, resolving dg c st1 → resolving dg c st2 →
         r_edges st1 = r_edges st2 → fmax st2 ≤ fmax st1).
  { intros Hcut H1 H2 Heq. apply Nat.le_antisymm; [|by apply Hcut].
    by apply Hcut. }
  clear st1 st2. intros st1 st2 [_ Hb1 _ Hpend] [_ Hb2 Hfree _] Heq.
  destruct (decide (fmax st2 ≤ fmax st1)) as [|Hgt]; [done|]. exfalso.
  destruct (lookup_lt_is_Some_2 (r_edges st1) (fmax st1)) as [p Hp];
    [rewrite Heq; lia|].
  destruct (Hpend (fmax st1) p) as [_ Hpos]; [lia|done|].
  assert (ready dg (r_edges st1) c p) as Hready.
  { intros d Hd. destruct (Hfree (fmax st1) p d) as (k & ? & ? & Hk);
      [lia|by rewrite <- Heq|done|].
    rewrite elem_of_list_to_set, elem_of_take. exists k. by rewrite Heq. }
  apply remaining_ready in Hready. lia.
Qed.

(** Two states at the same point of the inner loop, with the same sequence
    and [fmax], take the same step. *)
Lemma scan_step_agree dg fcur this i st1 st2 :
  scanning dg fcur i st1 → scanning dg fcur i st2 →
  r_edges st1 = r_edges st2 → fmax st1 = fmax st2 →
  r_edges st1 !! fcur = Some this →
  r_edges (scan_step dg this st1 i) = r_edges (scan_step dg this st2 i) ∧
  fmax (scan_step dg this st1 i) = fmax (scan_step dg this st2 i).
Proof.
  intros Hs1 Hs2 Hes Hfm Hthis. unfold scan_step. rewrite <- Hes.
  destruct (r_edges st1 !! i) as [p|] eqn:Hp; [|done].
  destruct (decide (this ∈ deps_of dg p)) as [Hin|]; [|done].
  destruct (scanning_promote_in_range dg fcur i st1 this p Hs1 Hthis Hp Hin) as [Hle _].
  destruct (scanning_pending _ _ _ _ Hs1 i p Hle Hp) as [Hrc1 _].
  destruct (scanning_pending _ _ _ _ Hs2 i p) as [Hrc2 _];
    [lia|by rewrite <- Hes|].
  cbv zeta in Hrc1, Hrc2. rewrite <- Hes in Hrc2.
  unfold rc_of in Hrc1, Hrc2. rewrite !lookup_insert_eq. simpl.
  rewrite Hrc1, Hrc2, <- Hfm. by destruct (decide (_ = 0%Z)).
Qed.

Lemma scan_agree dg fcur this st1 st2 :
  resolving dg fcur st1 → resolving dg fcur st2 →
  r_edges st1 = r_edges st2 → fmax st1 = fmax st2 →
  fcur < fmax st1 → r_edges st1 !! fcur = Some this →
  r_edges (scan dg this fcur st1) = r_edges (scan dg this fcur st2) ∧
  fmax (scan dg this fcur st1) = fmax (scan dg this fcur st2).
Proof.
  intros H1 H2 Hes Hfm Hlt Hthis. unfold scan. rewrite <- Hes.
  pose proof (resolving_bounds _ _ _ H1) as Hb.
  cut (∀ n, S fcur + n ≤ length (r_edges st1) →
         let a := foldl (scan_step dg this) st1 (seq (S fcur) n) in
         let b := foldl (scan_step dg this) st2 (seq (S fcur) n) in
         scanning dg fcur (S fcur + n) a ∧ scanning dg fcur (S fcur + n) b ∧
         r_edges a = r_edges b ∧ fmax a = fmax b ∧
         length (r_edges a) = length (r_edges st1) ∧
         r_edges a !! fcur = Some this).
  { intros Hcut. destruct (Hcut (length (r_edges st1) - S fcur)) as (_&_&?&?&_);
      [lia|done]. }
  induction n as [|n IH]; intros Hn; cbv zeta.
  - simpl. rewrite Nat.add_0_r. split_and!; try done.
    + by apply resolving_scanning.
    + apply resolving_scanning; [done|lia].
  - rewrite !seq_S, !foldl_snoc.
    destruct IH as (Hs1 & Hs2 & Hes' & Hfm' & Hlen & Hthis'); [lia|].
    set (a := foldl (scan_step dg this) st1 (seq (S fcur) n)) in *.
    set (b := foldl (scan_step dg this) st2 (seq (S fcur) n)) in *.
    destruct (scan_step_scanning dg fcur this (S fcur + n) a)
      as (Hs1' & Hfm1 & Htake1 & Hlen1); [done|done|lia|lia|].
    destruct (scan_step_scanning dg fcur this (S fcur + n) b)
      as (Hs2' & _); [done|by rewrite <- Hes'|lia|rewrite <- Hes'; lia|].
    destruct (scan_step_agree dg fcur this (S fcur + n) a b) as [? ?]; [done..|].
    replace (S fcur + S n) with (S (S fcur + n)) by lia.
    split_and!; [done|done|done|done|lia|].
    pose proof (scanning_bounds _ _ _ _ Hs1) as Hb1.
    rewrite <- Hthis', <- (lookup_take_lt (r_edges a) (fmax a) fcur) by lia.
    rewrite <- Htake1. symmetry. apply lookup_take_lt. lia.
Qed.

(** From the same sequence and [fmax] at a cursor, the outer loop ends in
    the same sequence and [fmax], whatever the reference counts of the free
    edges are and however much fuel is left over. *)
Lemma drain_agree {C} (yield : yield_fn T C) dg fuel1 fuel2 fcur st1 st2 s :
  resolving dg fcur st1 → resolving dg fcur st2 →
  r_edges st1 = r_edges st2 → fmax st1 = fmax st2 →
  length (r_edges st1) - fcur ≤ fuel1 → length (r_edges st1) - fcur ≤ fuel2 →
  same_run (drain yield dg fuel1 fcur st1 s) (drain yield dg fuel2 fcur st2 s).
Proof.
  revert fuel2 fcur st1 st2 s.
  induction fuel1 as [|fuel1 IH]; intros fuel2 fcur st1 st2 s H1 H2 Hes Hfm Hf1 Hf2;
    pose proof (resolving_bounds _ _ _ H1) as Hb.
  - destruct fuel2; simpl; rewrite <- Hfm; (case_decide; [lia|done]).
  - destruct fuel2 as [|fuel2]; simpl; rewrite <- Hfm, <- ?Hes.
    { case_decide; [lia|done]. }
    case_decide as Hlt; [|done].
    destruct (lookup_lt_is_Some_2 (r_edges st1) fcur) as [this Hthis]; [lia|].
    rewrite Hthis. destruct (yield s this None) as [s' [|]]; [|done].
    destruct (scan_resolving dg fcur this st1 H1 Hlt Hthis) as (H1' & _ & _).
    destruct (scan_resolving dg fcur this st2 H2) as (H2' & _ & _);
      [lia|by rewrite <- Hes|].
    destruct (scan_agree dg fcur this st1 st2) as [? ?]; [done..|].
    pose proof (Permutation_length (scan_perm dg this fcur st1)) as Hlen.
    apply IH; [done|done|done|done|lia|lia].
Qed.

(** On a sequence a resolution left behind, a new pass comes back to the
    cursor that resolution had reached without moving an edge. *)
Lemma drain_rerun dg es c fm fuel k st :
  frontier dg es c fm → resolving dg k st → r_edges st = es → k ≤ c →
  length es - k ≤ fuel →
  ∃ st' fuel', resolving dg c st' ∧ r_edges st' = es ∧ length es - c ≤ fuel' ∧
    ∀ a, (drain Resolve_body dg fuel k st a).1.1
         = (drain Resolve_body dg fuel' c st' a).1.1.
Proof.
  intros Hfr. revert k st.
  induction fuel as [|fuel IH]; intros k st Hinv Hes Hk Hfuel;
    pose proof (resolving_bounds _ _ _ Hinv) as Hb;
    pose proof (frontier_bounds _ _ _ _ Hfr) as Hb'.
  - assert (k = c) as -> by (rewrite Hes in Hb; lia).
    exists st, 0. split_and!; [done|done|lia|done].
  - destruct (decide (k = c)) as [->|Hne].
    { exists st, (S fuel). split_and!; [done|done|lia|done]. }
    destruct (lookup_lt_is_Some_2 es k) as [this Hthis]; [lia|].
    assert (k < fmax st) as Hlt.
    { destruct (decide (k < fmax st)) as [|Hge]; [done|]. exfalso.
      destruct (resolving_pending _ _ _ Hinv k this) as [_ Hpos];
        [lia|by rewrite Hes|].
      pose proof (frontier_free _ _ _ _ Hfr k this) as Hready.
      rewrite Nat.min_l in Hready by lia.
      rewrite Hes in Hpos. apply remaining_ready in Hready; [lia|lia|done]. }
    rewrite <- Hes in Hthis.
    destruct (scan_resolving dg k this st Hinv Hlt Hthis) as (Hinv' & _ & _).
    destruct (IH (S k) (scan dg this k st) Hinv') as (st' & fuel' & ? & ? & ? & Heq);
      [by apply (scan_fixed dg es c fm); [| | | | |lia]|lia|lia|].
    exists st', fuel'. split_and!; [done..|]. intros a.
    rewrite <- (drain_Resolve_body_state dg fuel' c _ (a.1 ++ [this], None) a), <- Heq.
    simpl. case_decide; [|lia]. by rewrite Hthis.
Qed.

(** The pass of [Resolve] in terms of the state in which the outer loop
    ends. *)
Lemma ResolveIter_drain dg :
  NoDup (edges dg) → validate dg = None →
  ∃ st, (∀ a, st = (drain Resolve_body dg (length (edges dg)) 0
                 {| r_edges := (promote_free dg (edges dg)).1;
                    refcounts := init_refcounts dg;
                    fmax := (promote_free dg (edges dg)).2 |} a).1.1) ∧
  ResolveIter dg Resolve_body ([], None)
  = ({| edges := r_edges st; edgeMap := edgeMap dg |},
     (take (fmax st) (r_edges st),
      if decide (fmax st = length (r_edges st)) then None
      else Some ErrCircularDependency)).
Proof.
  intros Hnd Hv. unfold ResolveIter. rewrite Hv.
  pose proof (init_resolving dg Hnd) as Hinv.
  pose proof (promoted_length _ _ _ _ (promote_free_spec dg (edges dg))) as Hlen.
  destruct (promote_free dg (edges dg)) as [es fm]; simpl in *.
  destruct (drain_Resolve_body dg (length es) 0 _ Hinv) as (st' & Hdrain & Hinv');
    [simpl; lia|].
  cbn [r_edges] in Hdrain. change (take 0 es) with (@nil T) in Hdrain.
  rewrite Hdrain. exists st'. split.
  - intros a. rewrite <- Hlen.
    by rewrite (drain_Resolve_body_state dg _ _ _ a ([], None)), Hdrain.
  - simpl. destruct (decide (fmax st' = length (r_edges st'))) as [Heq|Hne].
    + by rewrite bool_decide_eq_true_2 by done.
    + by rewrite bool_decide_eq_false_2 by done.
Qed.

(** A pass over the graph, whether it came to its end, failed or was
    stopped by its consumer, leaves a graph on which the pass of [Resolve]
    does what it does on the graph before. *)
Lemma pass_after_pass {C} dg (yield : yield_fn T C) s :
  NoDup (edges dg) →
  ResolveIter (ResolveIter dg yield s).1 Resolve_body ([], None)
  = ResolveIter dg Resolve_body ([], None).
Proof.
  intros Hnd. destruct (validate dg) as [err|] eqn:Hv.
  { by rewrite (ResolveIter_invalid dg yield s err Hv). }
  destruct (ResolveIter_drain dg Hnd Hv) as (fin & Hfin & ->).
  pose proof (init_resolving dg Hnd) as Hinv.
  pose proof (promote_free_ordered dg (edges dg)) as Hord.
  pose proof (promoted_length _ _ _ _ (promote_free_spec dg (edges dg))) as Hlen.
  assert (∃ st, (ResolveIter dg yield s).1 = {| edges := r_edges st; edgeMap := edgeMap dg |}
            ∧ st = (drain yield dg (length (edges dg)) 0
                 {| r_edges := (promote_free dg (edges dg)).1;
                    refcounts := init_refcounts dg;
                    fmax := (promote_free dg (edges dg)).2 |} s).1.1) as (st & -> & Hst).
  { unfold ResolveIter. rewrite Hv. rewrite <- Hlen.
    destruct (promote_free dg (edges dg)) as [es fm]; simpl.
    destruct (drain yield dg (length es) 0 _ s) as [[st' s'] f]. exists st'.
    split; [|done]. by destruct (f && _). }
  set (st0 := {| r_edges := (promote_free dg (edges dg)).1;
                 refcounts := init_refcounts dg;
                 fmax := (promote_free dg (edges dg)).2 |}) in *.
  destruct (drain_through yield dg (length (edges dg)) 0 st0 s Hinv)
    as (c & fuel' & Hc & Hfuel' & Hpass); [simpl; lia|].
  pose proof (drain_ordered yield dg (length (edges dg)) 0 st0 s Hinv) as Hord'.
  rewrite <- Hst in Hc, Hfuel', Hpass, Hord'.
  assert (frontier dg (r_edges st) c (fmax st)) as Hfr.
  { apply resolving_frontier; [done|]. apply Hord'; [simpl; lia|done]. }
  set (dg' := {| edges := r_edges st; edgeMap := edgeMap dg |}).
  assert (edgeMap dg' = edgeMap dg) as Hmap by done.
  destruct (ResolveIter_drain dg') as (fin' & Hfin' & ->);
    [apply Hfr|done|].
  cut (r_edges fin' = r_edges fin ∧ fmax fin' = fmax fin).
  { intros [-> ->]. done. }
  pose proof (init_resolving dg' (frontier_nodup _ _ _ _ Hfr)) as Hinv'.
  apply (resolving_ext dg' dg) in Hinv'; [|done].
  rewrite (promote_free_ext dg' dg) in Hinv', Hfin' by done.
  cbn [edges dg'] in Hinv', Hfin'.
  pose proof (promote_free_fixed dg _ _ _ Hfr) as Hfixed.
  set (st0' := {| r_edges := (promote_free dg (r_edges st)).1;
                  refcounts := init_refcounts dg';
                  fmax := (promote_free dg (r_edges st)).2 |}) in *.
  destruct (drain_rerun dg (r_edges st) c (fmax st) (length (r_edges st)) 0 st0')
    as (st' & fuel'' & Hc' & Hes' & Hfuel'' & Hpass'); [done|done|done|lia|lia|].
  specialize (Hfin ([], None)). specialize (Hfin' ([], None)).
  rewrite (drain_ext _ dg' dg) in Hfin' by done.
  rewrite Hpass in Hfin. rewrite Hpass' in Hfin'.
  destruct (drain_agree Resolve_body dg fuel'' fuel' c st' st ([], None))
    as (He & Hf & _); [done|done|done| |rewrite Hes'; lia|rewrite Hes'; lia|].
  { by apply (resolving_fmax dg c). }
  by rewrite Hfin, Hfin'.
Qed.

(** The loop hands a consumer the elements the body of [Resolve] collects,
    for as long as the consumer asks for more. *)
Lemma drain_feed {C} (yield : yield_fn T C) dg fuel fcur st s res :
  ∃ new,
    (drain Resolve_body dg fuel fcur st (res, None)).1.2 = (res ++ new, None) ∧
    (drain yield dg fuel fcur st s).1.2 = (feed yield s new).1 ∧
    (drain yield dg fuel fcur st s).2
      = (feed yield s new).2 && (drain Resolve_body dg fuel fcur st (res, None)).2 ∧
    ((feed yield s new).2 = true →
     (drain yield dg fuel fcur st s).1.1
       = (drain Resolve_body dg fuel fcur st (res, None)).1.1).
Proof.
  revert fcur st s res.
  induction fuel as [|fuel IH]; intros fcur st s res; simpl.
  - exists []. rewrite app_nil_r. by case_decide.
  - case_decide; [|exists []; by rewrite app_nil_r].
    destruct (r_edges st !! fcur) as [this|]; [|exists []; by rewrite app_nil_r].
    simpl.
    destruct (IH (S fcur) (scan dg this fcur st) (yield s this None).1 (res ++ [this]))
      as (new & Hres & Hs & Hfin & Hst).
    exists (this :: new). rewrite Hres, <- (assoc_L (++)). simpl.
    destruct (yield s this None) as [s' [|]]; simpl in *; [done|].
    split_and!; done.
Qed.

(** X9. For every graph and every consumer, ranging over [ResolveIter] is
    ranging over the elements that the loop of [Resolve] collects, up to the
    consumer's [break], followed by the error of [Resolve], if there is one
    and the consumer has not stopped. *)
Theorem ResolveIter_replay {C} dg (yield : yield_fn T C) s :
  (ResolveIter dg yield s).2
  = let '(res, err) := (ResolveIter dg Resolve_body ([], None)).2 in
    let '(s', more) := feed yield s res in
    if more then
      match err with
      | Some e => (yield s' inhabitant (Some e)).1
      | None => s'
      end
    else s'.
Proof.
  unfold ResolveIter. destruct (validate dg) as [err0|]; [done|].
  destruct (promote_free dg (edges dg)) as [es fm].
  match goal with |- context [drain yield ?g ?f ?c ?st s] =>
    destruct (drain_feed yield g f c st s [])
      as (new & Hres & Hs & Hfin & Hst);
    destruct (drain yield g f c st s) as [[st1 s1] fin1];
    destruct (drain Resolve_body g f c st ([], None)) as [[st2 [res2 ret2]] fin2] end.
  simpl in *. simplify_eq/=.
  destruct (feed yield s new) as [s' [|]] eqn:Hfeed; simpl in *.
  - rewrite Hst by done.
    destruct (fin2 && _); simpl; by rewrite Hfeed.
  - destruct (fin2 && _); simpl; by rewrite Hfeed.
Qed.

(** X10. Resolutions do not show in later ones: after any number of
    passes, complete, failed or stopped by their consumers, and no call of
    [Add], [Resolve] returns what it would have returned without them and
    leaves the same graph, and [ResolveIter] hands every consumer the same
    pairs. *)
Theorem resolutions_invisible ops rs :
  Forall resolution rs →
  Resolve (run (ops ++ rs)) = Resolve (run ops) ∧
  ∀ C (yield : yield_fn T C) s,
    (ResolveIter (run (ops ++ rs)) yield s).2 = (ResolveIter (run ops) yield s).2.
Proof.
  intros Hrs.
  cut (ResolveIter (run (ops ++ rs)) Resolve_body ([], None)
       = ResolveIter (run ops) Resolve_body ([], None)).
  { intros Heq. split; [unfold Resolve; by rewrite Heq|].
    intros C yield s.
    by rewrite (ResolveIter_replay (run (ops ++ rs))), Heq, <- ResolveIter_replay. }
  induction rs as [|o rs IH] using rev_ind.
  { by rewrite app_nil_r. }
  apply Forall_app in Hrs as [Hrs Ho]. rewrite Forall_singleton in Ho.
  rewrite app_assoc, run_snoc, <- IH by done.
  destruct o as [|C yield s]; [done|]. simpl.
  apply pass_after_pass. apply (consistent_nodup _ _ (run_consistent _)).
Qed.
End passes.

(** ** What a consumer sees *)

Section stream.
Context {T : Type} `{Countable T} `{!Inhabited T} `{!MapRange T}.
Implicit Types (dg : DependencyGraph T) (st : resolver T).
Implicit Types (ops : list (op (T:=T))).

Lemma ResolveIter_log_protocol {C} dg (yield : yield_fn T C) s :
  ∀ i e,
    (ResolveIter dg (traced yield) (s, [])).2.2 !! i = Some e →
    S i < length (ResolveIter dg (traced yield) (s, [])).2.2 →
    e.1.2 = None ∧ e.2 = true.
Proof.
  unfold ResolveIter. destruct (validate dg) as [err0|].
  - unfold traced; simpl. destruct (yield s inhabitant _) as [s' more0]; simpl.
    intros [|i] e Hi Hlen; simpl in *; lia.
  - destruct (promote_free dg (edges dg)) as [es fm].
    match goal with |- context [drain (traced yield) ?g ?f ?c ?st (s, [])] =>
      pose proof (drain_traced_more yield g f c st s []) as Hmore';
      destruct (drain_traced yield g f c st s []) as (new & Heq & Hnone & Hmore);
      rewrite Heq in Hmore' |- *;
      destruct (drain yield g f c st s) as [[st' s'] fin] end.
    simpl in *. specialize (Hmore' new eq_refl).
    rewrite Forall_forall in Hnone.
    destruct (fin && _) eqn:Hfin; simpl.
    + apply andb_true_iff in Hfin as [-> _].
      specialize (Hmore eq_refl). rewrite Forall_forall in Hmore.
      unfold traced; simpl. destruct (yield s' inhabitant _) as [s'' more0]; simpl.
      intros i e Hi Hlen. rewrite length_app in Hlen. simpl in Hlen.
      rewrite lookup_app_l in Hi by lia.
      apply list_elem_of_lookup_2 in Hi. split; [by apply Hnone|by apply Hmore].
    + intros i e Hi Hlen. split; [|by apply (Hmore' i)].
      apply Hnone. by eapply list_elem_of_lookup_2.
Qed.

(** X11. Up to the last call, [ResolveIter] hands the consumer elements
    only and goes on only when the consumer said so: an error pair is the
    last pair, and [yield] is not called again once it has returned
    [false]. *)
Theorem ResolveIter_protocol {C} dg (yield : yield_fn T C) s :
  Forall (λ e, e.1.2 = None ∧ e.2 = true)
    (removelast (ResolveIter dg (traced yield) (s, [])).2.2).
Proof.
  pose proof (ResolveIter_log_protocol dg yield s) as Hlog.
  revert Hlog. generalize ((ResolveIter dg (traced yield) (s, [])).2.2).
  intros log Hlog. rewrite removelast_firstn_len. apply Forall_lookup.
  intros i e Hi. apply lookup_take_Some in Hi as [Hi Hlt].
  apply (Hlog i); [done|lia].
Qed.

(** What was yielded is the start of what the body of [Resolve] collects. *)
Lemma ResolveIter_yielded {C} dg (yield : yield_fn T C) s :
  NoDup (edges dg) → validate dg = None →
  ∃ st, resolving dg (fmax st) st ∧ r_edges st ≡ₚ edges dg ∧
    yielded (ResolveIter dg (traced yield) (s, [])).2.2
      `prefix_of` take (fmax st) (r_edges st).
Proof.
  intros Hnd Hv. unfold ResolveIter. rewrite Hv.
  pose proof (init_resolving dg Hnd) as Hinv.
  pose proof (promoted_perm _ _ _ _ (promote_free_spec dg (edges dg))) as Hperm.
  destruct (promote_free dg (edges dg)) as [es fm]; simpl in *.
  destruct (drain_Resolve_body dg (length es) 0 _ Hinv) as (st' & Hdrain & Hinv');
    [simpl; lia|].
  cbn [r_edges] in Hdrain. change (take 0 es) with (@nil T) in Hdrain.
  pose proof (drain_perm Resolve_body dg (length es) 0
    {| r_edges := es; refcounts := init_refcounts dg; fmax := fm |} ([], None)) as Hd.
  rewrite Hdrain in Hd. simpl in Hd.
  exists st'. split_and!; [done|by rewrite Hd|].
  match goal with |- context [drain (traced yield) ?g ?f ?c ?st (s, [])] =>
    destruct (drain_lazy yield g f c st s [] [])
      as (new & rest & Heq & Hnone & Hres & _);
    destruct (drain (traced yield) g f c st (s, [])) as [[st1 [s1 log1]] fin1] end.
  rewrite Hdrain in Hres. simpl in *. simplify_eq/=.
  assert (yielded new = (λ e, e.1.1) <$> new) as Hnew.
  { unfold yielded. f_equal. clear -Hnone.
    induction Hnone as [|e new He _ IH]; [done|].
    by rewrite filter_cons_True, IH. }
  destruct (fin1 && _); simpl.
  - unfold traced; simpl. destruct (yield s1 inhabitant _) as [s'' more0]; simpl.
    unfold yielded in *. rewrite filter_app, filter_cons_False, filter_nil by done.
    rewrite app_nil_r, Hnew. by eexists.
  - rewrite Hnew. by eexists.
Qed.

(** X12. What a consumer is handed is sound as far as it goes, also when
    the pass is stopped or ends in an error: no element is yielded twice,
    every yielded element was added, and each of its dependencies was
    yielded before it. *)
Theorem ResolveIter_yields_sorted {C} ops (yield : yield_fn T C) s :
  NoDup (yielded (ResolveIter (run ops) (traced yield) (s, [])).2.2) ∧
  (∀ p, p ∈ yielded (ResolveIter (run ops) (traced yield) (s, [])).2.2 →
        p ∈ names ops) ∧
  sorted (run ops) (yielded (ResolveIter (run ops) (traced yield) (s, [])).2.2).
Proof.
  destruct (run_consistent ops) as [Hnd Hord _ _].
  destruct (validate (run ops)) as [err|] eqn:Hv.
  { rewrite (ResolveIter_invalid _ _ _ err Hv). unfold traced, yielded; simpl.
    destruct (yield s inhabitant _) as [s' more]; simpl.
    split_and!; [apply NoDup_nil_2|by intros ? ?%elem_of_nil|].
    by intros ? ? ?%elem_of_nil. }
  destruct (ResolveIter_yielded (run ops) yield s Hnd Hv)
    as (st & [Hnd' Hb Hfree _] & Hperm & [rest Hpre]).
  revert Hpre. generalize (yielded (ResolveIter (run ops) (traced yield) (s, [])).2.2).
  intros ys Hpre.
  assert (∀ j p, ys !! j = Some p → j < fmax st ∧ r_edges st !! j = Some p) as Hlook.
  { intros j p Hj.
    assert (take (fmax st) (r_edges st) !! j = Some p) as Ht.
    { rewrite Hpre. by apply lookup_app_l_Some. }
    by apply lookup_take_Some in Ht as [? ?]. }
  assert (NoDup (take (fmax st) (r_edges st))) as Hndt.
  { rewrite <- (take_drop (fmax st) (r_edges st)) in Hnd'.
    by apply NoDup_app in Hnd' as [? _]. }
  split_and!.
  - rewrite Hpre in Hndt. by apply NoDup_app in Hndt as [? _].
  - intros p [j Hj]%list_elem_of_lookup. destruct (Hlook j p Hj) as [_ Hp].
    apply elem_of_insertion_order. rewrite <- Hord, <- Hperm.
    by eapply list_elem_of_lookup_2.
  - intros p d [j Hj]%list_elem_of_lookup Hd. destruct (Hlook j p Hj) as [Hlt Hp].
    destruct (Hfree j p d Hlt Hp Hd) as (k & Hkj & _ & Hk).
    exists k, j. split_and!; [|done|done].
    assert (take (fmax st) (r_edges st) !! k = Some d) as Ht.
    { rewrite lookup_take_lt by lia. done. }
    rewrite Hpre in Ht. apply lookup_lt_Some in Hj.
    by rewrite lookup_app_l in Ht by lia.
Qed.

(** X13. In the result of [Resolve], an element never stands before one
    whose dependencies were complete earlier: if [p1] stands before [p2] and
    the first [c] elements hold all dependencies of [p2], they hold all
    dependencies of [p1]. *)
Theorem Resolve_ready_order ops out :
  (Resolve (run ops)).2 = (Some out, None) →
  ∀ j1 j2 p1 p2 c,
    j1 < j2 → out !! j1 = Some p1 → out !! j2 = Some p2 →
    deps_of (run ops) p2 ⊆ list_to_set (take c out) →
    deps_of (run ops) p1 ⊆ list_to_set (take c out).
Proof.
  intros Hres. pose proof Hres as (Hv & Heq & _)%Resolve_Some.
  pose proof (consistent_nodup _ _ (run_consistent ops)) as Hnd.
  destruct (Resolve_settled _ Hnd Hv) as (es & fm & _ & Hset & _ & Heq').
  rewrite Heq' in Heq. case_decide as Hfm; [|done]. simplify_eq.
  intros j1 j2 p1 p2 c Hlt H1 H2. apply (frontier_ordered _ _ _ _ Hset j1 j2); [|done..].
  apply lookup_lt_Some in H2. lia.
Qed.
End stream.

(** * The further properties, on the scenarios *)

Lemma circular_error_sound_witness :
  closed (run scenario3) ∧ has_cycle (run scenario3).
Proof. apply (circular_error_sound scenario3). compute_done. Defined.

Lemma ResolveIter_prefix_witness :
  yielded (ResolveIter (run scenario1) (traced until_A) ([], [])).2.2
    `prefix_of` ["A"; "C"; "E"; "B"; "D"] ∧
  (Forall (λ e, e.2 = true)
     (ResolveIter (run scenario1) (traced until_A) ([], [])).2.2 →
   yielded (ResolveIter (run scenario1) (traced until_A) ([], [])).2.2
     = ["A"; "C"; "E"; "B"; "D"]).
Proof. apply (ResolveIter_prefix (run scenario1) until_A []). compute_done. Defined.

Lemma free_elements_first_witness :
  ∃ rest,
    ["A"; "C"; "E"; "B"; "D"]
      = filter (free (run scenario1)) (insertion_order scenario1) ++ rest ∧
    Forall (λ p, ¬ free (run scenario1) p) rest.
Proof. apply (free_elements_first scenario1). compute_done. Defined.

Lemma Resolve_no_dependencies_witness :
  Resolve (run independent) = (run independent, (Some ["B"; "A"; "C"], None)).
Proof.
  change ["B"; "A"; "C"] with (insertion_order independent).
  apply (Resolve_no_dependencies independent).
  apply Forall_forall. compute_done.
Defined.

Lemma Resolve_ready_order_witness :
  deps_of (run scenario1) "B" ⊆ list_to_set (take 4 ["A"; "C"; "E"; "B"; "D"]).
Proof.
  refine (Resolve_ready_order scenario1 ["A"; "C"; "E"; "B"; "D"] _
            3 4 "B" "D" 4 _ _ _ _); compute_done.
Defined.

Lemma resolutions_invisible_witness :
  Resolve (run (early_exit ++ two_passes)) = Resolve (run early_exit).
Proof.
  refine (proj1 (resolutions_invisible early_exit two_passes _)).
  by repeat constructor.
Defined.

(** In scenario 1, [C] and [E] are free and keep the order of their
    insertion; [C] is free from the start and [B] only after [A], so [C]
    comes out before [B]. *)
Lemma stable_ordering_witness :
  (before "C" "E" ["A"; "C"; "E"; "B"; "D"]
     ↔ before "C" "E" (insertion_order scenario1)) ∧
  before "C" "B" ["A"; "C"; "E"; "B"; "D"].
Proof.
  split.
  - refine (proj1 (stable_ordering scenario1 ["A"; "C"; "E"; "B"; "D"] "C" "E"
                     _ _ _) _ _); compute_done.
  - refine (proj2 (stable_ordering scenario1 ["A"; "C"; "E"; "B"; "D"] "C" "B"
                     _ _ _) 0 _ _); compute_done.
Defined.

(** [X] and [Y] become free at the same step, after [A].  The first loop
    has swapped [X] with [A] by then, and [Y] comes out before [X]. *)
Example same_step_resolved :
  (Resolve (run same_step)).2 = (Some ["A"; "Y"; "X"], None).
Proof. vm_compute. reflexivity. Qed.
